(** * The URL shortener of Projects/2.URLShortener/main.go

    A shallow embedding of the two HTTP handlers, of the code generator and
    of the process-wide state they share ([urlStore] guarded by [mu]),
    followed by the properties of the short-link store.

    The handlers are written once, as programs over the primitive actions
    the Go code performs on shared state.  The same program text is given a
    sequential semantics ([run], one request served to completion) and an
    interleaving semantics ([thread_step], one goroutine per request). *)

From stdpp Require Import gmap strings list fin_maps.
From Stdlib Require Import NArith Ascii.
From Stdlib.Strings Require Import Byte.

Local Open Scope string_scope.

(** ** Library encodings used by [generateShortCode] *)

Module Encoding.

(** [fmt.Sprintf("%x", b)] on a byte slice: two lower-case hexadecimal
    digits per byte. *)
Definition hexdigits : list ascii := String.list_ascii_of_string "0123456789abcdef".

Definition hexdigit (n : N) : ascii := nth (N.to_nat n) hexdigits "0"%char.

Definition hex_of_byte (b : byte) : list ascii :=
  let n := Byte.to_N b in
  [hexdigit (N.shiftr n 4); hexdigit (N.land n 15)].

Definition sprintf_x (b : list byte) : string :=
  String.string_of_list_ascii (List.concat (map hex_of_byte b)).

(** [base64.URLEncoding]: the URL-safe alphabet, padded with [=]. *)
Definition encodeURL : list ascii :=
  String.list_ascii_of_string
    "ABCDEFGHIJKLMNOPQRSTUVWXYZabcdefghijklmnopqrstuvwxyz0123456789-_".

Definition enc (v : N) : ascii :=
  nth (N.to_nat (N.land v 63)) encodeURL "A"%char.

Definition padChar : ascii := "="%char.

Fixpoint encode (src : list byte) : list ascii :=
  match src with
  | [] => []
  | [b0] =>
      let val := N.shiftl (Byte.to_N b0) 16 in
      [enc (N.shiftr val 18); enc (N.shiftr val 12); padChar; padChar]
  | [b0; b1] =>
      let val := N.lor (N.shiftl (Byte.to_N b0) 16)
                       (N.shiftl (Byte.to_N b1) 8) in
      [enc (N.shiftr val 18); enc (N.shiftr val 12);
       enc (N.shiftr val 6); padChar]
  | b0 :: b1 :: b2 :: rest =>
      let val := N.lor (N.lor (N.shiftl (Byte.to_N b0) 16)
                              (N.shiftl (Byte.to_N b1) 8))
                       (Byte.to_N b2) in
      enc (N.shiftr val 18) :: enc (N.shiftr val 12) ::
      enc (N.shiftr val 6) :: enc val :: encode rest
  end.

Definition EncodeToString (src : list byte) : string :=
  String.string_of_list_ascii (encode src).

(** The slice expression [s[:n]]. *)
Definition slice_to (n : nat) (s : string) : string := String.substring 0 n s.

End Encoding.

(** ** Shared state *)

(** The package-level variables [urlStore] and [mu], together with the part
    of the environment the handlers consult: the bytes the operating system
    delivers to each call of [rand.Read], the order the runtime picks for
    each [range] over a map, and the output of [log.Printf]. *)
Record World := {
  urlStore : gmap string string;
  mu : bool;                       (* true while the mutex is held *)
  entropy : nat -> list byte;      (* bytes delivered to the k-th rand.Read *)
  rand_calls : nat;
  range_picks : nat -> nat -> nat; (* choices of the k-th map iteration *)
  range_calls : nat;
  log_output : list string
}.

Definition set_store (s : gmap string string) (w : World) : World :=
  {| urlStore := s; mu := mu w; entropy := entropy w;
     rand_calls := rand_calls w; range_picks := range_picks w;
     range_calls := range_calls w; log_output := log_output w |}.

Definition set_mu (b : bool) (w : World) : World :=
  {| urlStore := urlStore w; mu := b; entropy := entropy w;
     rand_calls := rand_calls w; range_picks := range_picks w;
     range_calls := range_calls w; log_output := log_output w |}.

Definition tick_rand (w : World) : World :=
  {| urlStore := urlStore w; mu := mu w; entropy := entropy w;
     rand_calls := S (rand_calls w); range_picks := range_picks w;
     range_calls := range_calls w; log_output := log_output w |}.

Definition tick_range (w : World) : World :=
  {| urlStore := urlStore w; mu := mu w; entropy := entropy w;
     rand_calls := rand_calls w; range_picks := range_picks w;
     range_calls := S (range_calls w); log_output := log_output w |}.

Definition add_log (msg : string) (w : World) : World :=
  {| urlStore := urlStore w; mu := mu w; entropy := entropy w;
     rand_calls := rand_calls w; range_picks := range_picks w;
     range_calls := range_calls w; log_output := log_output w ++ [msg] |}.

(** *** Iteration order of [range] over a map

    Go leaves the order unspecified.  [arrange picks l] builds an order of
    the entries [l] from a sequence of choices: going through [l] from the
    back, each entry is put at the chosen position among those already
    placed.  Every choice gives a permutation and every permutation is
    given by some choice (lemmas [arrange_perm], [arrange_complete]). *)
Fixpoint arrange {A} (picks : nat -> nat) (l : list A) : list A :=
  match l with
  | [] => []
  | x :: t =>
      let r := arrange picks t in
      let i := picks (length t) `mod` S (length r) in
      take i r ++ x :: drop i r
  end.

(** *** [rand.Read(b)]

    [b] is a fresh zeroed slice of length [n].  The call copies the
    delivered bytes into it and reports an error exactly when fewer than
    [n] bytes were delivered (the contract of [io.ReadFull]). *)
Definition zero_byte : byte := Byte.x00.

Definition fill (n : nat) (delivered : list byte) : list byte :=
  take n (delivered ++ replicate n zero_byte).

Definition read_failed (n : nat) (delivered : list byte) : bool :=
  bool_decide (length delivered < n).

(** ** Primitive actions and handler programs *)

Inductive Cmd : Type -> Type :=
| MuLock : Cmd unit
| MuUnlock : Cmd unit
| StoreRange : Cmd (list (string * string))
| StoreLoad (k : string) : Cmd (option string)
| StoreSet (k v : string) : Cmd unit
| RandRead (n : nat) : Cmd (list byte * bool)
| LogPrintf (msg : string) : Cmd unit.

Inductive Prog (R : Type) : Type :=
| Ret (r : R)
| Do {X : Type} (c : Cmd X) (k : X -> Prog R).

Arguments Ret {R} r.
Arguments Do {R X} c k.

Fixpoint bind {A B} (p : Prog A) (f : A -> Prog B) : Prog B :=
  match p with
  | Ret a => f a
  | Do c k => Do c (fun x => bind (k x) f)
  end.

(** One primitive action on the shared state.  [None] means the action
    cannot be taken now: [mu.Lock()] while the mutex is held blocks, and
    [mu.Unlock()] of a free mutex is a fatal runtime error. *)
Definition exec_cmd {X} (c : Cmd X) (w : World) : option (X * World) :=
  match c in Cmd X return option (X * World) with
  | MuLock => if mu w then None else Some (tt, set_mu true w)
  | MuUnlock => if mu w then Some (tt, set_mu false w) else None
  | StoreRange =>
      Some (arrange (range_picks w (range_calls w)) (map_to_list (urlStore w)),
            tick_range w)
  | StoreLoad k => Some (urlStore w !! k, w)
  | StoreSet k v => Some (tt, set_store (<[k := v]> (urlStore w)) w)
  | RandRead n =>
      let delivered := entropy w (rand_calls w) in
      Some ((fill n delivered, read_failed n delivered), tick_rand w)
  | LogPrintf msg => Some (tt, add_log msg w)
  end.

(** Sequential semantics: the program runs alone until it returns. *)
Fixpoint run {R} (p : Prog R) (w : World) : option (R * World) :=
  match p with
  | Ret r => Some (r, w)
  | Do c k =>
      match exec_cmd c w with
      | Some (x, w') => run (k x) w'
      | None => None
      end
  end.

(** ** The program *)

Record URLRequest := { LongURL : string }.
Record URLResponse := { ShortURL : string }.

(** What a handler reads of [*http.Request]: the method, the outcome of
    decoding the JSON body into a [URLRequest] ([None] when [Decode]
    returns an error) and [r.URL.Path]. *)
Record Request := {
  Method : string;
  Body : option URLRequest;
  Path : string
}.

(** What a handler writes to [http.ResponseWriter]: [http.Error(w, msg,
    code)], a JSON-encoded [URLResponse], or [http.Redirect(w, r, url,
    code)].  [Panicked] is a run-time panic of the handler. *)
Inductive Response :=
| HttpError (msg : string) (code : nat)
| JsonBody (resp : URLResponse)
| HttpRedirect (url : string) (code : nat)
| Panicked.

Definition shortCodeLength : nat := 8.

Definition generateShortCode : Prog string :=
  Do (RandRead shortCodeLength) (fun res =>
    let b := fst res in
    if snd res then
      Do (LogPrintf "Error generating random bytes") (fun _ =>
        Ret (Encoding.slice_to shortCodeLength (Encoding.sprintf_x b)))
    else
      Ret (Encoding.slice_to shortCodeLength (Encoding.EncodeToString b))).

Definition short_url (short : string) : Response :=
  JsonBody {| ShortURL := "http://localhost:8080/" +:+ short |}.

(** The loop [for short, long := range urlStore], over the entries in the
    order the runtime produced them. *)
Fixpoint find_existing (longURL : string) (entries : list (string * string))
  : option string :=
  match entries with
  | [] => None
  | (short, long) :: rest =>
      if decide (long = longURL) then Some short
      else find_existing longURL rest
  end.

(** The part of [shortenURLHandler] after [mu.Lock()]. *)
Definition shorten_locked (req : URLRequest) : Prog Response :=
  Do StoreRange (fun entries =>
    match find_existing (LongURL req) entries with
    | Some short => Ret (short_url short)
    | None =>
        bind generateShortCode (fun shortCode =>
          Do (StoreSet shortCode (LongURL req)) (fun _ =>
            Ret (short_url shortCode)))
    end).

(** [mu.Lock(); defer mu.Unlock()]: the mutex is released on every return
    of the code that follows. *)
Definition locked {R} (body : Prog R) : Prog R :=
  Do MuLock (fun _ => bind body (fun r => Do MuUnlock (fun _ => Ret r))).

Definition shortenURLHandler (r : Request) : Prog Response :=
  if negb (bool_decide (Method r = "POST")) then
    Ret (HttpError "Method not allowed" 405)
  else
    match Body r with
    | None => Ret (HttpError "Invalid request body" 400)
    | Some req =>
        if decide (LongURL req = "") then
          Ret (HttpError "Long URL cannot be empty" 400)
        else locked (shorten_locked req)
    end.

Definition redirectHandler (r : Request) : Prog Response :=
  match Path r with
  | EmptyString => Ret Panicked        (* Path[1:] with an empty path *)
  | String _ shortCode =>
      Do MuLock (fun _ =>
        Do (StoreLoad shortCode) (fun res =>
          Do MuUnlock (fun _ =>
            match res with
            | None => Ret (HttpError "Short URL not found" 404)
            | Some longURL => Ret (HttpRedirect longURL 302)
            end)))
  end.

(** The routes registered in [main]: [/shorten] goes to
    [shortenURLHandler], every other path to [redirectHandler]. *)
Definition serve (r : Request) : Prog Response :=
  if decide (Path r = "/shorten") then shortenURLHandler r
  else redirectHandler r.

(** The two operations of the store as a client reaches them. *)
Definition Shorten (longURL : string) : Prog Response :=
  shortenURLHandler
    {| Method := "POST"; Body := Some {| LongURL := longURL |};
       Path := "/shorten" |}.

Definition Resolve (code : string) : Prog Response :=
  redirectHandler {| Method := "GET"; Body := None; Path := "/" +:+ code |}.

(** Requests served one after the other. *)
Fixpoint serve_all (reqs : list Request) (w : World)
  : option (list Response * World) :=
  match reqs with
  | [] => Some ([], w)
  | r :: rest =>
      match run (serve r) w with
      | None => None
      | Some (resp, w1) =>
          match serve_all rest w1 with
          | None => None
          | Some (resps, w2) => Some (resp :: resps, w2)
          end
      end
  end.

(** A freshly started server: empty store, free mutex. *)
Definition initial (w : World) : Prop := urlStore w = ∅ /\ mu w = false.

Definition reachable (w : World) : Prop :=
  exists w0 reqs resps, initial w0 /\ serve_all reqs w0 = Some (resps, w).

(** No two codes of the store lead to the same long URL. *)
Definition dedup_inv (s : gmap string string) : Prop :=
  forall c1 c2 u, s !! c1 = Some u -> s !! c2 = Some u -> c1 = c2.

(** A concrete environment for examples. *)
Definition start_world (ent : nat -> list byte) (picks : nat -> nat -> nat)
  : World :=
  {| urlStore := ∅; mu := false; entropy := ent; rand_calls := 0;
     range_picks := picks; range_calls := 0; log_output := [] |}.

Definition no_entropy : nat -> list byte := fun _ => [].
Definition no_picks : nat -> nat -> nat := fun _ _ => 0.

Definition sample_bytes : list byte :=
  [Byte.x01; Byte.xbd; Byte.xdd; Byte.x79; Byte.xfd; Byte.x76;
   Byte.x00; Byte.x11].

(** *** What the code generator returns and the state it leaves

    Closed forms of the result of running [generateShortCode] and
    [Shorten]; lemmas [run_generateShortCode] and [run_Shorten] show that
    the programs compute exactly these. *)

Definition generated (w : World) : string :=
  let delivered := entropy w (rand_calls w) in
  let b := fill shortCodeLength delivered in
  if read_failed shortCodeLength delivered
  then Encoding.slice_to shortCodeLength (Encoding.sprintf_x b)
  else Encoding.slice_to shortCodeLength (Encoding.EncodeToString b).

Definition after_generate (w : World) : World :=
  if read_failed shortCodeLength (entropy w (rand_calls w))
  then add_log "Error generating random bytes" (tick_rand w)
  else tick_rand w.

(** The state a [Shorten] leaves when it finds the long URL in the store,
    and the state it leaves when it stores a new code. *)
Definition hit (w : World) : World :=
  set_mu false (tick_range (set_mu true w)).

Definition inserted (u : string) (w : World) : World :=
  set_mu false
    (set_store (<[generated w := u]> (urlStore w))
               (after_generate (tick_range (set_mu true w)))).

(** ** Concurrent requests

    [net/http] runs every handler in a goroutine of its own.  A
    configuration is the pool of handler programs still running together
    with the shared state; a step lets one goroutine perform its next
    primitive action. *)

Definition Config : Type := list (Prog Response) * World.

Definition thread_step (i : nat) (cfg : Config) : option Config :=
  match fst cfg !! i with
  | Some (Do c k) =>
      match exec_cmd c (snd cfg) with
      | Some (x, w') => Some (<[i := k x]> (fst cfg), w')
      | None => None
      end
  | _ => None
  end.

Fixpoint exec_schedule (sched : list nat) (cfg : Config) : option Config :=
  match sched with
  | [] => Some cfg
  | i :: rest =>
      match thread_step i cfg with
      | Some cfg' => exec_schedule rest cfg'
      | None => None
      end
  end.

(** No goroutine can take a step: each has returned or is blocked. *)
Definition quiescent (cfg : Config) : Prop :=
  forall i, thread_step i cfg = None.

(** *** Control points of [shortenURLHandler] after the validation

    [at_pc u p] is the rest of the handler program of a [Shorten u] that
    has reached control point [p], and [pc_step] is the action it takes
    next; lemma [thread_step_at] shows that a step of the pool is a
    [pc_step] of one of its goroutines. *)

Inductive pc :=
| PcLock                      (* before mu.Lock() *)
| PcRange                     (* before the range over urlStore *)
| PcRand                      (* before rand.Read *)
| PcLog (b : list byte)       (* before log.Printf, on the error branch *)
| PcSet (code : string)       (* before urlStore[shortCode] = ... *)
| PcUnlock (code : string)    (* before the deferred mu.Unlock() *)
| PcDone (code : string).     (* returned *)

Definition unlock_then (r : Response) : Prog Response :=
  Do MuUnlock (fun _ => Ret r).

Definition store_new (u shortCode : string) : Prog Response :=
  Do (StoreSet shortCode u) (fun _ => Ret (short_url shortCode)).

Definition at_pc (u : string) (p : pc) : Prog Response :=
  match p with
  | PcLock => Shorten u
  | PcRange => bind (shorten_locked {| LongURL := u |}) unlock_then
  | PcRand => bind (bind generateShortCode (store_new u)) unlock_then
  | PcLog b =>
      Do (LogPrintf "Error generating random bytes") (fun _ =>
        bind (store_new u
                (Encoding.slice_to shortCodeLength (Encoding.sprintf_x b)))
             unlock_then)
  | PcSet code => bind (store_new u code) unlock_then
  | PcUnlock code => unlock_then (short_url code)
  | PcDone code => Ret (short_url code)
  end.

Definition pc_step (u : string) (p : pc) (w : World) : option (pc * World) :=
  match p with
  | PcLock => if mu w then None else Some (PcRange, set_mu true w)
  | PcRange =>
      Some (match find_existing u
                    (arrange (range_picks w (range_calls w))
                             (map_to_list (urlStore w)))
            with
            | Some short => PcUnlock short
            | None => PcRand
            end, tick_range w)
  | PcRand =>
      let delivered := entropy w (rand_calls w) in
      let b := fill shortCodeLength delivered in
      Some (if read_failed shortCodeLength delivered then PcLog b
            else PcSet (Encoding.slice_to shortCodeLength
                          (Encoding.EncodeToString b)),
            tick_rand w)
  | PcLog b =>
      Some (PcSet (Encoding.slice_to shortCodeLength (Encoding.sprintf_x b)),
            add_log "Error generating random bytes" w)
  | PcSet code => Some (PcUnlock code, set_store (<[code := u]> (urlStore w)) w)
  | PcUnlock code => if mu w then Some (PcDone code, set_mu false w) else None
  | PcDone _ => None
  end.

(** Inside the critical section. *)
Definition crit (p : pc) : nat :=
  match p with
  | PcLock | PcDone _ => 0
  | _ => 1
  end.

(** Primitive actions left before the handler returns, at most. *)
Definition steps_left (p : pc) : nat :=
  match p with
  | PcLock => 6
  | PcRange => 5
  | PcRand => 4
  | PcLog _ => 3
  | PcSet _ => 2
  | PcUnlock _ => 1
  | PcDone _ => 0
  end.

Definition pc_ok (u : string) (s : gmap string string) (p : pc) : Prop :=
  match p with
  | PcLock | PcRange => True
  | PcRand | PcLog _ | PcSet _ => forall c, s !! c <> Some u
  | PcUnlock code | PcDone code => s !! code = Some u
  end.

Record pool_inv (u : string) (pcs : list pc) (w : World) : Prop := {
  inv_mutex : sum_list (crit <$> pcs) = if mu w then 1 else 0;
  inv_dedup : dedup_inv (urlStore w);
  inv_pcs : forall i p, pcs !! i = Some p -> pc_ok u (urlStore w) p
}.

(** ** Concrete environments *)

(** A randomness source that delivers the same eight bytes at every call. *)
Definition same_bytes : nat -> list byte := fun _ => sample_bytes.

(** A store that already holds the code the next [rand.Read] leads to. *)
Definition collision_world : World :=
  {| urlStore := {[ "Ab3def12" := "https://example.com/a" ]};
     mu := false; entropy := same_bytes; rand_calls := 1;
     range_picks := no_picks; range_calls := 1; log_output := [] |}.

Definition post (longURL : string) : Request :=
  {| Method := "POST"; Body := Some {| LongURL := longURL |};
     Path := "/shorten" |}.

(** The responses to a sequence of requests, and the records of the store
    once they are served. *)
Definition responses_of (reqs : list Request) (w : World)
  : option (list Response) :=
  fst <$> serve_all reqs w.

Definition records_of (reqs : list Request) (w : World)
  : option (list (string * string)) :=
  (fun out => map_to_list (urlStore (snd out))) <$> serve_all reqs w.

(** The state after the first Shorten of a fresh server whose randomness
    source delivers [sample_bytes]. *)
Definition after_first : World :=
  inserted "https://example.com/a" (start_world same_bytes no_picks).

(** The state after two concurrent Shorten calls of the same long URL on a
    fresh server whose randomness source delivers [sample_bytes]. *)
Definition after_two : World :=
  {| urlStore := {[ "Ab3def12" := "https://example.com/a" ]};
     mu := false; entropy := same_bytes; rand_calls := 1;
     range_picks := no_picks; range_calls := 2; log_output := [] |}.

(** ** Further notions

    Shape of a short code, groups of the base64 encoding, the structure of
    the handler programs with respect to the mutex, and what relates a pool
    of goroutines to the requests served one after the other. *)

(** Every character is one of the 64 of [base64.URLEncoding]. *)
Definition url_safe (s : string) : Prop :=
  Forall (fun c => c ∈ Encoding.encodeURL) (String.list_ascii_of_string s).

(** The 24-bit value [encode] builds from three bytes, and the four
    characters it emits for it. *)
Definition group (b0 b1 b2 : byte) : N :=
  N.lor (N.lor (N.shiftl (Byte.to_N b0) 16) (N.shiftl (Byte.to_N b1) 8))
        (Byte.to_N b2).

Definition group_chars (b0 b1 b2 : byte) : list ascii :=
  [Encoding.enc (N.shiftr (group b0 b1 b2) 18);
   Encoding.enc (N.shiftr (group b0 b1 b2) 12);
   Encoding.enc (N.shiftr (group b0 b1 b2) 6);
   Encoding.enc (group b0 b1 b2)].

(** The same state with another choice of map iteration orders. *)
Definition set_picks (picks : nat -> nat -> nat) (w : World) : World :=
  {| urlStore := urlStore w; mu := mu w; entropy := entropy w;
     rand_calls := rand_calls w; range_picks := picks;
     range_calls := range_calls w; log_output := log_output w |}.

Inductive cmd_kind := KLock | KUnlock | KOther.

Definition kind_of {X} (c : Cmd X) : cmd_kind :=
  match c with
  | MuLock => KLock
  | MuUnlock => KUnlock
  | _ => KOther
  end.

(** A program that never touches the mutex. *)
Fixpoint lock_free {R} (p : Prog R) : Prop :=
  match p with
  | Ret _ => True
  | Do c k => kind_of c = KOther /\ forall x, lock_free (k x)
  end.

(** The rest of a handler that holds the mutex: it does not lock, and it
    returns right after its one [mu.Unlock()]. *)
Fixpoint in_cs {R} (p : Prog R) : Prop :=
  match p with
  | Ret _ => False
  | Do c k =>
      match kind_of c with
      | KLock => False
      | KUnlock => forall x, exists r, k x = Ret r
      | KOther => forall x, in_cs (k x)
      end
  end.

(** A program that returns after at most [n] primitive actions. *)
Fixpoint within {R} (n : nat) (p : Prog R) : Prop :=
  match p with
  | Ret _ => True
  | Do c k =>
      match n with
      | 0 => False
      | S m => forall x, within m (k x)
      end
  end.

(** Goroutines that have not started are still the whole handler of their
    request. *)
Definition idle_ok (reqs : list Request) (lin : list (nat * Request * Response))
    (holder : option nat) (pool : list (Prog Response)) : Prop :=
  forall i r, i ∉ (lin.*1.*1) -> Some i <> holder ->
    reqs !! i = Some r -> pool !! i = Some (serve r).

(** The pool and the state [w] reached from [w0] are explained by a list
    [lin] of (goroutine, request, response): these goroutines have returned
    these responses, serving their requests in this order from [w0] gives
    the same responses and a state [wl]; and either the mutex is free and
    [w] is [wl], or one more goroutine holds the mutex and running the rest
    of its program alone from [w] gives what serving its request from [wl]
    gives. *)
Definition lin_inv (reqs : list Request) (w0 : World)
    (pool : list (Prog Response)) (w : World) : Prop :=
  exists (lin : list (nat * Request * Response)) (wl : World),
    length pool = length reqs /\
    NoDup (lin.*1.*1) /\
    serve_all (lin.*1.*2) w0 = Some (lin.*2, wl) /\
    (forall i r resp, (i, r, resp) ∈ lin ->
       reqs !! i = Some r /\ pool !! i = Some (Ret resp)) /\
    ((mu w = false /\ w = wl /\ idle_ok reqs lin None pool) \/
     (exists h rh p,
        (h ∉ lin.*1.*1) /\ reqs !! h = Some rh /\ pool !! h = Some p /\
        in_cs p /\ mu w = true /\ run p w = run (serve rh) wl /\
        idle_ok reqs lin (Some h) pool)).

(** *** More concrete environments *)

(** Eight bytes that agree with [sample_bytes] on the first six. *)
Definition other_tail_bytes : list byte :=
  [Byte.x01; Byte.xbd; Byte.xdd; Byte.x79; Byte.xfd; Byte.x76;
   Byte.xff; Byte.xee].

(** A failing delivery: five bytes, the first four of them zero. *)
Definition short_delivery : list byte :=
  [Byte.x00; Byte.x00; Byte.x00; Byte.x00; Byte.xff].

(** Map iteration choices other than [no_picks]. *)
Definition other_picks : nat -> nat -> nat := fun k i => k + i.

Definition get_path (path : string) : Request :=
  {| Method := "GET"; Body := None; Path := path |}.


(** The state after the two Shorten requests of [record_remapped]. *)
Definition after_second : World :=
  inserted "https://example.com/b" after_first.

(** Two concurrent requests: a Shorten and a lookup of the code it will
    get; in [lookup_first] the lookup takes the mutex first. *)
Definition two_requests : list Request :=
  [post "https://example.com/a"; get_path "/Ab3def12"].

Definition lookup_first : list nat := [1; 1; 1; 0; 0; 0; 0; 0].

Definition two_answers : list (Prog Response) :=
  [Ret (short_url "Ab3def12"); Ret (HttpError "Short URL not found" 404)].

(** ** Sanity checks of the encodings *)

Example sprintf_x_sample :
  Encoding.sprintf_x sample_bytes = "01bddd79fd760011".
Proof. reflexivity. Qed.

Example EncodeToString_sample :
  Encoding.EncodeToString sample_bytes = "Ab3def12ABE=".
Proof. reflexivity. Qed.

(** * Proofs *)

(** ** Basic facts about the model *)

Section Arrange.
Context {A : Type}.

Lemma arrange_perm (picks : nat -> nat) (l : list A) :
  arrange picks l ≡ₚ l.
Proof.
  induction l as [|x t IH]; cbn [arrange]; [done|].
  rewrite <- Permutation_middle, take_drop. by constructor.
Qed.

Lemma arrange_length (picks : nat -> nat) (l : list A) :
  length (arrange picks l) = length l.
Proof. apply Permutation_length, arrange_perm. Qed.

Lemma arrange_ext (p q : nat -> nat) (l : list A) :
  (forall i, i < length l -> p i = q i) -> arrange p l = arrange q l.
Proof.
  induction l as [|x t IH]; cbn [arrange length]; intros Hpq; [done|].
  rewrite IH by (intros i Hi; apply Hpq; lia).
  rewrite (Hpq (length t)) by lia. done.
Qed.

Lemma arrange_complete (l l' : list A) :
  l' ≡ₚ l -> exists picks, arrange picks l = l'.
Proof.
  revert l'. induction l as [|x t IH]; intros l' Hp.
  - apply Permutation_nil_r in Hp. subst. by exists (fun _ => 0).
  - assert (Hx : x ∈ l') by (rewrite Hp; left).
    apply list_elem_of_split in Hx as (l1 & l2 & ->).
    rewrite <- Permutation_middle in Hp.
    apply Permutation_cons_inv in Hp.
    destruct (IH _ Hp) as [p0 Hp0].
    exists (fun n => if decide (n = length t) then length l1 else p0 n).
    cbn [arrange].
    rewrite (arrange_ext _ p0) by (intros i Hi; case_decide; [lia|done]).
    rewrite Hp0. case_decide; [|done].
    rewrite Nat.mod_small by (rewrite length_app; lia).
    by rewrite take_app_length, drop_app_length.
Qed.
End Arrange.

Lemma run_bind {A B} (p : Prog A) (f : A -> Prog B) (w : World) :
  run (bind p f) w =
  match run p w with
  | Some (a, w') => run (f a) w'
  | None => None
  end.
Proof.
  revert w. induction p as [a|X c k IH]; intros w; simpl; [done|].
  destruct (exec_cmd c w) as [[x w']|]; [apply IH | done].
Qed.

Lemma find_existing_Some u entries short :
  find_existing u entries = Some short -> (short, u) ∈ entries.
Proof.
  induction entries as [|[s l] rest IH]; simpl; [done|].
  case_decide as Hl.
  - intros [= ->]. subst. left.
  - intros H. right. auto.
Qed.

Lemma find_existing_None u entries :
  find_existing u entries = None -> forall short, (short, u) ∉ entries.
Proof.
  induction entries as [|[s l] rest IH]; simpl; intros H short Hin.
  - by apply elem_of_nil in Hin.
  - case_decide as Hl; [done|].
    apply elem_of_cons in Hin as [[= -> ->]|Hin]; [done|].
    by apply (IH H short).
Qed.

(** The entries a [range] over the store produces are the records of the
    store, whatever the order. *)
Lemma range_entries (picks : nat -> nat) (s : gmap string string) c u :
  (c, u) ∈ arrange picks (map_to_list s) <-> s !! c = Some u.
Proof. rewrite arrange_perm. apply elem_of_map_to_list. Qed.

Lemma unlock_lock_id w : mu w = false -> set_mu false (set_mu true w) = w.
Proof. destruct w; simpl; intros ->; reflexivity. Qed.

(** *** The code generator *)

Lemma run_generateShortCode w :
  run generateShortCode w = Some (generated w, after_generate w).
Proof.
  unfold generated, after_generate. simpl.
  destruct (read_failed shortCodeLength (entropy w (rand_calls w))); done.
Qed.

Lemma after_generate_store w : urlStore (after_generate w) = urlStore w.
Proof. unfold after_generate. by destruct (read_failed _ _). Qed.

Lemma after_generate_mu w : mu (after_generate w) = mu w.
Proof. unfold after_generate. by destruct (read_failed _ _). Qed.

Lemma after_generate_rand_calls w :
  rand_calls (after_generate w) = S (rand_calls w).
Proof. unfold after_generate. by destruct (read_failed _ _). Qed.

(** *** The handlers, run alone *)

Lemma run_locked {R} (body : Prog R) w :
  run (locked body) w =
  if mu w then None
  else match run body (set_mu true w) with
       | Some (r, w') => if mu w' then Some (r, set_mu false w') else None
       | None => None
       end.
Proof.
  unfold locked. cbn [run exec_cmd]. destruct (mu w); [done|].
  rewrite run_bind. destruct (run body (set_mu true w)) as [[r w']|]; [|done].
  cbn [run exec_cmd]. by destruct (mu w').
Qed.

Lemma run_shorten_locked req w :
  run (shorten_locked req) w =
  match find_existing (LongURL req)
          (arrange (range_picks w (range_calls w)) (map_to_list (urlStore w)))
  with
  | Some short => Some (short_url short, tick_range w)
  | None =>
      Some (short_url (generated w),
            set_store (<[generated w := LongURL req]> (urlStore w))
                      (after_generate (tick_range w)))
  end.
Proof.
  unfold shorten_locked. cbn [run exec_cmd].
  destruct (find_existing _ _); [done|].
  rewrite run_bind, run_generateShortCode. cbn [run exec_cmd].
  by rewrite after_generate_store.
Qed.

Lemma inserted_store u w :
  urlStore (inserted u w) = <[generated w := u]> (urlStore w).
Proof. reflexivity. Qed.

Lemma inserted_rand_calls u w : rand_calls (inserted u w) = S (rand_calls w).
Proof.
  unfold inserted. cbn [rand_calls set_mu set_store].
  by rewrite after_generate_rand_calls.
Qed.

(** Every way [shortenURLHandler] can return. *)
Lemma shortenURLHandler_cases r w resp w' :
  run (shortenURLHandler r) w = Some (resp, w') ->
  (w' = w /\
   (resp = HttpError "Method not allowed" 405 \/
    resp = HttpError "Invalid request body" 400 \/
    resp = HttpError "Long URL cannot be empty" 400)) \/
  (exists u short,
     Body r = Some {| LongURL := u |} /\ u <> "" /\ mu w = false /\
     urlStore w !! short = Some u /\
     resp = short_url short /\ w' = hit w) \/
  (exists u,
     Body r = Some {| LongURL := u |} /\ u <> "" /\ mu w = false /\
     (forall c, urlStore w !! c <> Some u) /\
     resp = short_url (generated w) /\ w' = inserted u w).
Proof.
  unfold shortenURLHandler.
  destruct (negb _); [intros [= <- <-]; left; auto|].
  destruct (Body r) as [[u]|]; [|intros [= <- <-]; left; auto].
  cbn [LongURL]. case_decide as Hu; [intros [= <- <-]; left; auto|].
  rewrite run_locked. destruct (mu w) eqn:Hmu; [done|].
  rewrite run_shorten_locked. cbn [LongURL urlStore set_mu range_picks range_calls].
  destruct (find_existing _ _) as [short|] eqn:Hfind.
  - cbn [mu tick_range set_mu]. intros [= <- <-]. right; left.
    exists u, short. repeat split; try done.
    by apply find_existing_Some, range_entries in Hfind.
  - cbn [mu set_store]. rewrite after_generate_mu. cbn [mu tick_range set_mu].
    intros [= <- <-]. right; right. exists u. repeat split; try done.
    intros c Hc. eapply find_existing_None; [exact Hfind|].
    apply range_entries. exact Hc.
Qed.

(** Every way [redirectHandler] can return. *)
Lemma redirectHandler_cases r w resp w' :
  run (redirectHandler r) w = Some (resp, w') ->
  w' = w /\
  ((Path r = "" /\ resp = Panicked) \/
   (exists a code, Path r = String a code /\ mu w = false /\
      resp = match urlStore w !! code with
             | None => HttpError "Short URL not found" 404
             | Some longURL => HttpRedirect longURL 302
             end)).
Proof.
  unfold redirectHandler. destruct (Path r) as [|a code].
  - intros [= <- <-]. split; [done|]. by left.
  - cbn [run exec_cmd]. destruct (mu w) eqn:Hmu; [done|].
    cbn [mu set_mu urlStore].
    intros H. assert (resp = match urlStore w !! code with
             | None => HttpError "Short URL not found" 404
             | Some longURL => HttpRedirect longURL 302
             end /\ w' = set_mu false (set_mu true w)) as [-> ->].
    { destruct (urlStore w !! code); by inversion H. }
    split; [by apply unlock_lock_id|].
    right. by exists a, code.
Qed.

Lemma short_url_inj c1 c2 : short_url c1 = short_url c2 -> c1 = c2.
Proof. unfold short_url. intros [= H]. by apply (inj _) in H. Qed.

(** What one served request does to the store: nothing, or one insertion of
    the generated code for a long URL the store did not hold. *)
Lemma serve_step r w resp w' :
  run (serve r) w = Some (resp, w') ->
  mu w' = mu w /\
  ((urlStore w' = urlStore w /\
    forall c, resp = short_url c -> is_Some (urlStore w !! c)) \/
   (exists u, u <> "" /\ (forall c, urlStore w !! c <> Some u) /\
      resp = short_url (generated w) /\
      urlStore w' = <[generated w := u]> (urlStore w))).
Proof.
  unfold serve. case_decide.
  - intros Hrun. apply shortenURLHandler_cases in Hrun
      as [[-> Herr]|[(u & short & _ & _ & Hmu & Hs & -> & ->)|
                     (u & _ & Hu & Hmu & Hnone & -> & ->)]].
    + split; [done|]. left. split; [done|].
      intros c ->. destruct Herr as [|[|]]; discriminate.
    + split; [by rewrite Hmu|]. left. split; [done|].
      intros c Hc. apply short_url_inj in Hc. subst. eauto.
    + split; [by rewrite Hmu|]. right. exists u. by rewrite inserted_store.
  - intros Hrun. apply redirectHandler_cases in Hrun as [-> Hresp].
    split; [done|]. left. split; [done|].
    intros c ->. destruct Hresp as [[_ ?]|(a & code & _ & _ & Hr)];
      [discriminate|]. by destruct (urlStore w !! code).
Qed.

Lemma run_Shorten u w :
  u <> "" -> mu w = false ->
  (exists short, urlStore w !! short = Some u /\
     run (Shorten u) w = Some (short_url short, hit w)) \/
  ((forall c, urlStore w !! c <> Some u) /\
     run (Shorten u) w = Some (short_url (generated w), inserted u w)).
Proof.
  intros Hu Hmu. unfold Shorten, shortenURLHandler. cbn [Method Body LongURL].
  rewrite bool_decide_true by done. cbn [negb].
  rewrite decide_False by done.
  rewrite run_locked, Hmu, run_shorten_locked.
  cbn [LongURL urlStore set_mu range_picks range_calls].
  destruct (find_existing _ _) as [short|] eqn:Hfind.
  - left. exists short. split; [|done].
    by apply find_existing_Some, range_entries in Hfind.
  - right. cbn [mu set_store]. rewrite after_generate_mu.
    split; [|done]. intros c Hc.
    eapply find_existing_None; [exact Hfind|]. apply range_entries, Hc.
Qed.

Lemma run_Resolve code w :
  mu w = false ->
  run (Resolve code) w =
  Some (match urlStore w !! code with
        | None => HttpError "Short URL not found" 404
        | Some longURL => HttpRedirect longURL 302
        end, w).
Proof.
  intros Hmu. unfold Resolve, redirectHandler. cbn [Path].
  change ("/" +:+ code) with (String "/" code). cbn [run exec_cmd]. rewrite Hmu. cbn [mu set_mu urlStore].
  rewrite (unlock_lock_id w Hmu). by destruct (urlStore w !! code).
Qed.

(** *** Invariants of the store *)

Lemma dedup_inv_empty : dedup_inv ∅.
Proof. intros c1 c2 u H. by rewrite lookup_empty in H. Qed.

Lemma dedup_inv_insert s c u :
  dedup_inv s -> (forall c', s !! c' <> Some u) -> dedup_inv (<[c := u]> s).
Proof.
  intros Hinv Hnone c1 c2 v H1 H2.
  rewrite lookup_insert in H1. rewrite lookup_insert in H2.
  repeat case_decide; simplify_eq; try done.
  - by destruct (Hnone c1).
  - by destruct (Hnone c2).
  - eauto.
Qed.

Lemma serve_dedup_inv r w resp w' :
  run (serve r) w = Some (resp, w') ->
  dedup_inv (urlStore w) -> dedup_inv (urlStore w').
Proof.
  intros Hrun Hinv.
  apply serve_step in Hrun as [_ [[-> _]|(u & _ & Hnone & _ & ->)]]; [done|].
  by apply dedup_inv_insert.
Qed.

(** Induction over the requests served so far. *)
Lemma serve_all_ind (P : World -> Prop) :
  (forall r w resp w', run (serve r) w = Some (resp, w') -> P w -> P w') ->
  forall reqs w resps w',
    serve_all reqs w = Some (resps, w') -> P w -> P w'.
Proof.
  intros Hstep reqs. induction reqs as [|r rest IH]; intros w resps w'.
  - by intros [= _ <-].
  - cbn [serve_all]. destruct (run (serve r) w) as [[resp w1]|] eqn:Hr; [|done].
    destruct (serve_all rest w1) as [[resps' w2]|] eqn:Hrest; [|done].
    intros [= _ <-] HP. eauto.
Qed.

Lemma serve_all_mu reqs w resps w' :
  serve_all reqs w = Some (resps, w') -> mu w' = mu w.
Proof.
  intros H. apply (serve_all_ind (fun x => mu x = mu w)) in H; [done| |done].
  intros r w1 resp w2 Hrun <-. by apply serve_step in Hrun as [? _].
Qed.

Lemma serve_all_dedup_inv reqs w resps w' :
  serve_all reqs w = Some (resps, w') ->
  dedup_inv (urlStore w) -> dedup_inv (urlStore w').
Proof.
  apply (serve_all_ind (fun x => dedup_inv (urlStore x))).
  intros r w1 resp w2. apply serve_dedup_inv.
Qed.

Lemma reachable_mu w : reachable w -> mu w = false.
Proof.
  intros (w0 & reqs & resps & [_ Hmu] & Hrun).
  apply serve_all_mu in Hrun. congruence.
Qed.

Lemma reachable_dedup_inv w : reachable w -> dedup_inv (urlStore w).
Proof.
  intros (w0 & reqs & resps & [Hs _] & Hrun).
  apply serve_all_dedup_inv in Hrun; [done|].
  rewrite Hs. apply dedup_inv_empty.
Qed.

Lemma reachable_start ent picks : reachable (start_world ent picks).
Proof. exists (start_world ent picks), [], []. by repeat split. Qed.

(** Every code of the store was handed out in some response. *)
Lemma serve_all_keys reqs w resps w' c :
  serve_all reqs w = Some (resps, w') ->
  is_Some (urlStore w' !! c) ->
  is_Some (urlStore w !! c) \/ short_url c ∈ resps.
Proof.
  revert w resps. induction reqs as [|r rest IH]; intros w resps.
  - intros [= <- <-]. by left.
  - cbn [serve_all]. destruct (run (serve r) w) as [[resp w1]|] eqn:Hr; [|done].
    destruct (serve_all rest w1) as [[resps' w2]|] eqn:Hrest; [|done].
    intros [= <- <-] Hc.
    destruct (IH _ _ Hrest Hc) as [Hc1|Hin]; [|right; by right].
    apply serve_step in Hr as [_ [[Hs _]|(u & _ & _ & -> & Hs)]].
    + left. by rewrite <- Hs.
    + rewrite Hs, lookup_insert in Hc1. case_decide; subst.
      * right. left.
      * by left.
Qed.

(** ** Concurrent requests: the invariant of the pool *)

(** A handler that runs to completion alone is one run of a pool that
    holds only this handler. *)
Lemma run_exec_schedule (p : Prog Response) w r w' :
  run p w = Some (r, w') ->
  exists sched, exec_schedule sched ([p], w) = Some ([Ret r], w').
Proof.
  revert w. induction p as [r0|X c k IH]; intros w Hrun.
  - cbn in Hrun. simplify_eq. by exists [].
  - cbn [run] in Hrun.
    destruct (exec_cmd c w) as [[x w1]|] eqn:Hc; [|done].
    destruct (IH x w1 Hrun) as [sched Hsched].
    exists (0 :: sched). cbn [exec_schedule].
    unfold thread_step. cbn [fst snd lookup list_lookup]. by rewrite Hc.
Qed.

Lemma Shorten_unfold u :
  u <> "" -> Shorten u = locked (shorten_locked {| LongURL := u |}).
Proof.
  intros Hu. unfold Shorten, shortenURLHandler. cbn [Method Body LongURL].
  rewrite bool_decide_true by done. cbn [negb]. by rewrite decide_False.
Qed.

Lemma thread_step_at u pcs i p w :
  u <> "" -> pcs !! i = Some p ->
  thread_step i (at_pc u <$> pcs, w) =
  match pc_step u p w with
  | Some (p', w') => Some (at_pc u <$> <[i := p']> pcs, w')
  | None => None
  end.
Proof.
  intros Hu Hp. unfold thread_step. cbn [fst snd].
  rewrite list_lookup_fmap, Hp. cbn [fmap option_fmap option_map].
  destruct p; cbn [at_pc pc_step].
  - rewrite (Shorten_unfold u Hu). unfold locked. cbn [exec_cmd].
    destruct (mu w); [done|]. by rewrite list_fmap_insert.
  - unfold shorten_locked. cbn [bind exec_cmd LongURL].
    rewrite list_fmap_insert. by destruct (find_existing _ _).
  - unfold generateShortCode. cbn [bind exec_cmd fst snd].
    rewrite list_fmap_insert. by destruct (read_failed _ _).
  - cbn [exec_cmd]. by rewrite list_fmap_insert.
  - unfold store_new. cbn [bind exec_cmd]. by rewrite list_fmap_insert.
  - unfold unlock_then. cbn [exec_cmd].
    destruct (mu w); [|done]. by rewrite list_fmap_insert.
  - done.
Qed.

Section Sums.
Context {A : Type} (f : A -> nat).

Lemma sum_insert (l : list A) i p p' :
  l !! i = Some p ->
  sum_list (f <$> <[i := p']> l) + f p = sum_list (f <$> l) + f p'.
Proof.
  revert i. induction l as [|a l IH]; intros [|i] H; simplify_eq/=.
  - lia.
  - specialize (IH i H). lia.
Qed.

Lemma sum_lookup_le (l : list A) i p :
  l !! i = Some p -> f p <= sum_list (f <$> l).
Proof.
  revert i. induction l as [|a l IH]; intros [|i] H; simplify_eq/=.
  - lia.
  - specialize (IH i H). lia.
Qed.

Lemma sum_two_le (l : list A) i j p q :
  i <> j -> l !! i = Some p -> l !! j = Some q ->
  f p + f q <= sum_list (f <$> l).
Proof.
  revert i j. induction l as [|a l IH]; intros [|i] [|j] Hij Hi Hj;
    simplify_eq/=.
  - pose proof (sum_lookup_le l j q Hj). lia.
  - pose proof (sum_lookup_le l i p Hi). lia.
  - assert (Hne : i <> j) by congruence.
    pose proof (IH i j Hne Hi Hj). lia.
Qed.

Lemma sum_pos_lookup (l : list A) :
  0 < sum_list (f <$> l) -> exists i p, l !! i = Some p /\ 0 < f p.
Proof.
  induction l as [|a l IH]; cbn; [lia|]. intros Hpos.
  destruct (decide (0 < f a)) as [Ha|Ha].
  - by exists 0, a.
  - destruct IH as (i & p & Hi & Hp); [lia|]. by exists (S i), p.
Qed.

Lemma sum_replicate n (a : A) :
  sum_list (f <$> replicate n a) = n * f a.
Proof. induction n as [|n IH]; cbn; [done|]. rewrite IH. lia. Qed.
End Sums.

Section Pool.
Variable u : string.
Hypothesis u_nonempty : u <> "".

Lemma pc_step_decreases p w p' w' :
  pc_step u p w = Some (p', w') -> steps_left p' < steps_left p.
Proof.
  destruct p; cbn [pc_step]; intros H; simplify_eq; cbn; try lia.
  - destruct (mu w); simplify_eq. cbn. lia.
  - destruct (find_existing _ _); cbn; lia.
  - destruct (read_failed _ _); cbn; lia.
  - destruct (mu w); simplify_eq. cbn. lia.
Qed.

Lemma pc_step_inv pcs i p w p' w' :
  pool_inv u pcs w -> pcs !! i = Some p ->
  pc_step u p w = Some (p', w') ->
  pool_inv u (<[i := p']> pcs) w'.
Proof.
  intros [Hmutex Hdedup Hpcs] Hi Hstep.
  pose proof (sum_insert crit pcs i p p' Hi) as Hsum.
  pose proof (Hpcs i p Hi) as Hp.
  assert (Hothers : forall w2 : World,
    urlStore w2 = urlStore w -> pc_ok u (urlStore w2) p' ->
    forall j q, <[i := p']> pcs !! j = Some q -> pc_ok u (urlStore w2) q).
  { intros w2 Hs Hp' j q Hj.
    apply list_lookup_insert_Some in Hj as [(-> & -> & _)|[Hne Hj]];
      [done|]. rewrite Hs. eauto. }
  destruct p; cbn [pc_step] in Hstep.
  - destruct (mu w) eqn:Hmu; simplify_eq. cbn [crit] in Hsum.
    split; cbn [mu set_mu urlStore]; [lia | done | by apply Hothers].
  - simplify_eq. split; cbn [mu tick_range urlStore]; [| done |].
    + destruct (find_existing _ _); cbn [crit] in Hsum; lia.
    + apply (Hothers (tick_range w)); [done|].
      destruct (find_existing _ _) as [short|] eqn:Hfind; cbn [pc_ok].
      * by apply find_existing_Some, range_entries in Hfind.
      * intros c Hc. eapply find_existing_None; [exact Hfind|].
        apply range_entries, Hc.
  - simplify_eq. split; cbn [mu tick_rand urlStore]; [| done |].
    + destruct (read_failed _ _); cbn [crit] in Hsum; lia.
    + apply (Hothers (tick_rand w)); [done|].
      by destruct (read_failed _ _).
  - simplify_eq. split; cbn [mu add_log urlStore]; [cbn in Hsum; lia|done|].
    by apply (Hothers (add_log "Error generating random bytes" w)).
  - simplify_eq. cbn [pc_ok] in Hp.
    split; cbn [mu set_store urlStore]; [cbn in Hsum; lia| |].
    + by apply dedup_inv_insert.
    + intros j q Hj.
      apply list_lookup_insert_Some in Hj as [(-> & <- & _)|[Hne Hj]].
      * cbn [pc_ok]. apply lookup_insert_eq.
      * pose proof (sum_two_le crit pcs i j _ _ Hne Hi Hj) as Hle.
        pose proof (Hpcs j q Hj) as Hq.
        assert (crit q = 0) by (cbn [crit] in Hle; destruct (mu w); lia).
        destruct q; try discriminate; cbn [pc_ok] in *; [done|].
        by destruct (Hp code0).
  - destruct (mu w) eqn:Hmu; simplify_eq. cbn [crit] in Hsum.
    split; cbn [mu set_mu urlStore]; [lia | done |].
    by apply (Hothers (set_mu false w)).
  - done.
Qed.

(** Unless every handler has returned, some goroutine can go on. *)
Lemma pool_progress pcs w :
  pool_inv u pcs w ->
  0 < sum_list (steps_left <$> pcs) ->
  exists i p p' w', pcs !! i = Some p /\ pc_step u p w = Some (p', w').
Proof.
  intros [Hmutex _ _] Hleft.
  destruct (mu w) eqn:Hmu.
  - destruct (sum_pos_lookup crit pcs) as (i & p & Hi & Hp); [lia|].
    exists i, p.
    destruct p; cbn in Hp; try lia; cbn [pc_step]; rewrite ?Hmu; eauto.
  - destruct (sum_pos_lookup steps_left pcs Hleft) as (i & p & Hi & Hp).
    pose proof (sum_lookup_le crit pcs i p Hi) as Hle.
    exists i, p.
    destruct p; cbn in Hp, Hle; try lia; cbn [pc_step]; rewrite ?Hmu; eauto.
Qed.

Lemma all_done_lookup pcs i p :
  sum_list (steps_left <$> pcs) = 0 -> pcs !! i = Some p ->
  exists code, p = PcDone code.
Proof.
  intros Hz Hi. pose proof (sum_lookup_le steps_left pcs i p Hi) as Hle.
  destruct p; cbn in Hle; try lia. eauto.
Qed.

(** When all have returned, they hold one and the same code, the only
    code of the store that leads to [u]. *)
Lemma pool_final pcs w :
  pool_inv u pcs w -> sum_list (steps_left <$> pcs) = 0 ->
  exists code,
    pcs = replicate (length pcs) (PcDone code) /\
    (0 < length pcs -> forall c, urlStore w !! c = Some u <-> c = code).
Proof.
  intros [_ Hdedup Hpcs] Hz. destruct pcs as [|p0 pcs].
  { exists "". split; [done|]. cbn. lia. }
  destruct (all_done_lookup (p0 :: pcs) 0 p0 Hz eq_refl) as [code ->].
  pose proof (Hpcs 0 _ eq_refl) as Hcode. cbn [pc_ok] in Hcode.
  exists code. split.
  - symmetry. apply replicate_as_Forall. split; [done|].
    apply Forall_lookup. intros i p Hi.
    destruct (all_done_lookup _ i p Hz Hi) as [c ->].
    pose proof (Hpcs i _ Hi) as Hc. cbn [pc_ok] in Hc.
    by rewrite (Hdedup _ _ _ Hc Hcode).
  - intros _ c. split; [|by intros ->]. intros Hc. eauto.
Qed.

Lemma thread_step_pcs pcs i w cfg' :
  thread_step i (at_pc u <$> pcs, w) = Some cfg' ->
  exists p p' w', pcs !! i = Some p /\ pc_step u p w = Some (p', w') /\
    cfg' = (at_pc u <$> <[i := p']> pcs, w').
Proof.
  intros Hstep. destruct (pcs !! i) as [p|] eqn:Hi.
  - rewrite (thread_step_at u pcs i p w u_nonempty Hi) in Hstep.
    destruct (pc_step u p w) as [[p' w']|] eqn:Hpc; [|done].
    exists p, p', w'. by inversion Hstep.
  - unfold thread_step in Hstep. cbn [fst] in Hstep.
    by rewrite list_lookup_fmap, Hi in Hstep.
Qed.

Lemma exec_schedule_inv sched : forall pcs w pool' w',
  exec_schedule sched (at_pc u <$> pcs, w) = Some (pool', w') ->
  pool_inv u pcs w ->
  exists pcs', pool' = at_pc u <$> pcs' /\ pool_inv u pcs' w' /\
    length pcs' = length pcs /\
    sum_list (steps_left <$> pcs') + length sched
      <= sum_list (steps_left <$> pcs).
Proof.
  induction sched as [|i rest IH]; intros pcs w pool' w' Hexec Hinv.
  - cbn in Hexec. simplify_eq. exists pcs.
    split; [done|]. split; [done|]. split; [done|]. cbn. lia.
  - cbn [exec_schedule] in Hexec.
    destruct (thread_step i _) as [cfg1|] eqn:Hstep; [|done].
    apply thread_step_pcs in Hstep as (p & p1 & w1 & Hi & Hpc & ->).
    destruct (IH _ _ _ _ Hexec (pc_step_inv _ _ _ _ _ _ Hinv Hi Hpc))
      as (pcs' & -> & Hinv' & Hlen & Hsteps).
    exists pcs'. split; [done|]. split; [done|]. split.
    + by rewrite Hlen, length_insert.
    + pose proof (sum_insert steps_left pcs i p p1 Hi).
      pose proof (pc_step_decreases _ _ _ _ Hpc). cbn [length]. lia.
Qed.

Lemma quiescent_all_done pcs w :
  pool_inv u pcs w -> quiescent (at_pc u <$> pcs, w) ->
  sum_list (steps_left <$> pcs) = 0.
Proof.
  intros Hinv Hq.
  destruct (decide (0 < sum_list (steps_left <$> pcs))) as [Hpos|]; [|lia].
  destruct (pool_progress pcs w Hinv Hpos) as (i & p & p' & w' & Hi & Hpc).
  specialize (Hq i). rewrite (thread_step_at u pcs i p w u_nonempty Hi) in Hq.
  by rewrite Hpc in Hq.
Qed.

Lemma all_done_quiescent pcs w :
  sum_list (steps_left <$> pcs) = 0 -> quiescent (at_pc u <$> pcs, w).
Proof.
  intros Hz i. unfold thread_step. cbn [fst snd]. rewrite list_lookup_fmap.
  destruct (pcs !! i) as [p|] eqn:Hi; [|done].
  by destruct (all_done_lookup pcs i p Hz Hi) as [code ->].
Qed.

(** Some schedule lets every handler return. *)
Lemma pool_completes m : forall pcs w,
  pool_inv u pcs w -> sum_list (steps_left <$> pcs) <= m ->
  exists sched pcs' w',
    exec_schedule sched (at_pc u <$> pcs, w) = Some (at_pc u <$> pcs', w') /\
    sum_list (steps_left <$> pcs') = 0.
Proof.
  induction m as [|m IH]; intros pcs w Hinv Hm.
  - exists [], pcs, w. split; [done|lia].
  - destruct (decide (0 < sum_list (steps_left <$> pcs))) as [Hpos|];
      [|exists [], pcs, w; split; [done|lia]].
    destruct (pool_progress pcs w Hinv Hpos) as (i & p & p' & w' & Hi & Hpc).
    pose proof (sum_insert steps_left pcs i p p' Hi).
    pose proof (pc_step_decreases _ _ _ _ Hpc).
    destruct (IH (<[i := p']> pcs) w') as (sched & pcs' & w2 & Hexec & Hz);
      [by eapply pc_step_inv | lia |].
    exists (i :: sched), pcs', w2. split; [|done].
    cbn [exec_schedule].
    by rewrite (thread_step_at u pcs i p w u_nonempty Hi), Hpc.
Qed.

Lemma pool_inv_start n w :
  mu w = false -> dedup_inv (urlStore w) ->
  pool_inv u (replicate n PcLock) w.
Proof.
  intros Hmu Hdedup. split; [|done|].
  - rewrite sum_replicate, Hmu. cbn. lia.
  - intros i p Hi. apply lookup_replicate in Hi as [-> _]. done.
Qed.
End Pool.


(** ** Properties of the store *)

(** C1 — Round-trip: for every non-empty long URL, shortening it and then
    resolving the returned code redirects to that same long URL. *)
Theorem round_trip u w :
  u <> "" -> mu w = false ->
  exists code w1,
    run (Shorten u) w = Some (short_url code, w1) /\
    run (Resolve code) w1 = Some (HttpRedirect u 302, w1).
Proof.
  intros Hu Hmu.
  destruct (run_Shorten u w Hu Hmu) as [(short & Hs & Hrun)|[_ Hrun]].
  - exists short, (hit w). split; [done|].
    rewrite run_Resolve by done. cbn [hit urlStore set_mu tick_range].
    by rewrite Hs.
  - exists (generated w), (inserted u w). split; [done|].
    rewrite run_Resolve by done. rewrite inserted_store.
    by rewrite lookup_insert_eq.
Qed.

Lemma round_trip_witness :
  exists code w1,
    run (Shorten "https://example.com/a") (start_world same_bytes no_picks)
      = Some (short_url code, w1) /\
    run (Resolve code) w1 = Some (HttpRedirect "https://example.com/a" 302, w1).
Proof.
  apply (round_trip "https://example.com/a" (start_world same_bytes no_picks));
    [done | reflexivity].
Defined.

(** C2 — Idempotence: in every reachable state, two successive calls of
    Shorten with the same long URL give the identical response (the same
    short code when the URL is not empty), and the second call leaves the
    store as the first one left it. *)
Theorem shorten_idempotent u w :
  reachable w ->
  exists r w1 w2,
    run (Shorten u) w = Some (r, w1) /\
    run (Shorten u) w1 = Some (r, w2) /\
    urlStore w2 = urlStore w1 /\
    (u <> "" -> exists code, r = short_url code).
Proof.
  intros Hreach.
  pose proof (reachable_mu w Hreach) as Hmu.
  pose proof (reachable_dedup_inv w Hreach) as Hdedup.
  destruct (decide (u = "")) as [->|Hu].
  { exists (HttpError "Long URL cannot be empty" 400), w, w. by repeat split. }
  assert (exists code w1,
    run (Shorten u) w = Some (short_url code, w1) /\ mu w1 = false /\
    dedup_inv (urlStore w1) /\ urlStore w1 !! code = Some u)
    as (code & w1 & Hrun1 & Hmu1 & Hdedup1 & Hcode).
  { destruct (run_Shorten u w Hu Hmu) as [(short & Hs & Hrun)|[Hnone Hrun]].
    - exists short, (hit w). by repeat split.
    - exists (generated w), (inserted u w). repeat split; try done.
      + rewrite inserted_store. by apply dedup_inv_insert.
      + rewrite inserted_store. apply lookup_insert_eq. }
  destruct (run_Shorten u w1 Hu Hmu1) as [(short & Hs & Hrun2)|[Hnone _]].
  - rewrite (Hdedup1 _ _ _ Hs Hcode) in Hrun2.
    exists (short_url code), w1, (hit w1). repeat split; eauto.
  - by destruct (Hnone code).
Qed.

Lemma shorten_idempotent_witness :
  exists r w1 w2,
    run (Shorten "https://example.com/a") (start_world same_bytes no_picks)
      = Some (r, w1) /\
    run (Shorten "https://example.com/a") w1 = Some (r, w2) /\
    urlStore w2 = urlStore w1 /\
    ("https://example.com/a" <> "" -> exists code, r = short_url code).
Proof.
  apply (shorten_idempotent "https://example.com/a"
           (start_world same_bytes no_picks)).
  apply reachable_start.
Defined.

(** C3, as the code has it — there is no collision handling: a Shorten of a
    long URL the store does not hold reads the randomness source exactly
    once, stores the one candidate it generated and returns it, whether or
    not that code is already present; no error is returned. *)
Theorem shorten_single_attempt u w :
  u <> "" -> mu w = false ->
  (forall c, urlStore w !! c <> Some u) ->
  exists w',
    run (Shorten u) w = Some (short_url (generated w), w') /\
    urlStore w' = <[generated w := u]> (urlStore w) /\
    rand_calls w' = S (rand_calls w).
Proof.
  intros Hu Hmu Hnone.
  destruct (run_Shorten u w Hu Hmu) as [(short & Hs & _)|[_ Hrun]].
  - by destruct (Hnone short).
  - exists (inserted u w). split; [done|]. split; [done|].
    apply inserted_rand_calls.
Qed.

Lemma shorten_single_attempt_witness :
  exists w',
    run (Shorten "https://example.com/b") collision_world
      = Some (short_url (generated collision_world), w') /\
    urlStore w' = <[generated collision_world := "https://example.com/b"]>
                    (urlStore collision_world) /\
    rand_calls w' = S (rand_calls collision_world).
Proof.
  apply (shorten_single_attempt "https://example.com/b" collision_world);
    [done | reflexivity |].
  intros c. unfold collision_world. cbn [urlStore].
  rewrite lookup_singleton. case_decide; [|done]. by intros [= ?].
Defined.

(** C3, as stated, fails: the store holds the code the generator produces
    (and would produce at every further attempt), yet the insertion is not
    rejected and Shorten returns that code with success after a single
    read of the randomness source. *)
Lemma collision_not_rejected :
  urlStore collision_world !! "Ab3def12" = Some "https://example.com/a" /\
  generated collision_world = "Ab3def12" /\
  exists w',
    run (Shorten "https://example.com/b") collision_world
      = Some (short_url "Ab3def12", w') /\
    urlStore w' !! "Ab3def12" = Some "https://example.com/b" /\
    rand_calls w' = S (rand_calls collision_world).
Proof.
  split; [reflexivity|]. split; [reflexivity|].
  eexists. split; [reflexivity|]. split; reflexivity.
Qed.

(** C4, as the code has it — code generation has no failure mode: it
    returns a code in every environment, and when the randomness source
    fails it logs the error and falls back to the first eight hexadecimal
    digits of the buffer; no error reaches the caller. *)
Theorem generateShortCode_fallback w :
  (exists code w', run generateShortCode w = Some (code, w')) /\
  (length (entropy w (rand_calls w)) < shortCodeLength ->
   run generateShortCode w =
   Some (Encoding.slice_to shortCodeLength
           (Encoding.sprintf_x
              (fill shortCodeLength (entropy w (rand_calls w)))),
         add_log "Error generating random bytes" (tick_rand w))).
Proof.
  split.
  - rewrite run_generateShortCode. eauto.
  - intros Hfail. rewrite run_generateShortCode.
    unfold generated, after_generate, read_failed.
    by rewrite bool_decide_true.
Qed.

Lemma generateShortCode_fallback_witness :
  run generateShortCode (start_world no_entropy no_picks) =
  Some ("00000000",
        add_log "Error generating random bytes"
          (tick_rand (start_world no_entropy no_picks))).
Proof.
  apply (generateShortCode_fallback (start_world no_entropy no_picks)).
  vm_compute. lia.
Defined.

(** C4, as stated, fails: with a randomness source that delivers nothing,
    the generator returns the hexadecimal encoding of the untouched buffer
    instead of an error, and Shorten answers with success. *)
Lemma fallback_instead_of_error :
  read_failed shortCodeLength
    (entropy (start_world no_entropy no_picks) 0) = true /\
  (exists w', run generateShortCode (start_world no_entropy no_picks)
              = Some ("00000000", w')) /\
  (exists w', run (Shorten "https://example.com/a")
                (start_world no_entropy no_picks)
              = Some (short_url "00000000", w')).
Proof.
  split; [reflexivity|]. split; eexists; reflexivity.
Qed.

(** C5, as the code has it — no operation deletes a record: a code present
    in the store is still present after any sequence of requests, and it
    still leads to the same long URL unless one of these requests was a
    Shorten of a different long URL that was answered with that very
    code. *)
Theorem record_permanence reqs w resps w' c u :
  serve_all reqs w = Some (resps, w') ->
  urlStore w !! c = Some u ->
  is_Some (urlStore w' !! c) /\
  (urlStore w' !! c = Some u \/
   exists r v,
     (r, short_url c) ∈ zip reqs resps /\
     Body r = Some {| LongURL := v |} /\ v <> u).
Proof.
  revert w resps u. induction reqs as [|r rest IH]; intros w resps u.
  - intros [= <- <-] Hc. split; [eauto | by left].
  - cbn [serve_all]. destruct (run (serve r) w) as [[resp w1]|] eqn:Hr; [|done].
    destruct (serve_all rest w1) as [[resps' w2]|] eqn:Hrest; [|done].
    intros [= <- <-] Hc.
    assert (Hstep : urlStore w1 !! c = Some u \/
              exists v, v <> u /\ Body r = Some {| LongURL := v |} /\
                resp = short_url c /\ urlStore w1 !! c = Some v).
    { unfold serve in Hr. case_decide.
      - apply shortenURLHandler_cases in Hr
          as [[-> _]|[(v & short & _ & _ & _ & _ & _ & ->)|
                      (v & Hbody & _ & _ & Hnone & -> & ->)]];
          [by left | by left |].
        rewrite inserted_store.
        destruct (decide (generated w = c)) as [Heq|Hne].
        + right. exists v. rewrite Heq. split.
          { intros ->. by destruct (Hnone c). }
          split; [done|]. split; [done|]. apply lookup_insert_eq.
        + left. by rewrite lookup_insert_ne.
      - apply redirectHandler_cases in Hr as [-> _]. by left. }
    destruct Hstep as [Hc1|(v & Hv & Hbody & -> & Hc1)].
    + destruct (IH _ _ _ Hrest Hc1) as [Hsome [Hkeep|(r' & v' & Hin & Hb & Hne)]].
      * split; [done | by left].
      * split; [done|]. right. exists r', v'. split; [by right | done].
    + destruct (IH _ _ _ Hrest Hc1) as [Hsome _].
      split; [done|]. right. exists r, v. split; [left | done].
Qed.

Lemma record_permanence_witness :
  is_Some (urlStore (inserted "https://example.com/b" after_first)
             !! "Ab3def12") /\
  (urlStore (inserted "https://example.com/b" after_first) !! "Ab3def12"
     = Some "https://example.com/a" \/
   exists r v,
     (r, short_url "Ab3def12")
       ∈ zip [post "https://example.com/b"] [short_url "Ab3def12"] /\
     Body r = Some {| LongURL := v |} /\ v <> "https://example.com/a").
Proof.
  apply (record_permanence [post "https://example.com/b"] after_first
           [short_url "Ab3def12"]
           (inserted "https://example.com/b" after_first)
           "Ab3def12" "https://example.com/a");
    vm_compute; reflexivity.
Defined.

(** C5, as stated, fails: the randomness source delivers the same bytes
    twice, and the code first mapped to one long URL is mapped to another
    one by the next Shorten. *)
Lemma record_remapped :
  records_of [post "https://example.com/a"]
    (start_world same_bytes no_picks)
    = Some [("Ab3def12", "https://example.com/a")] /\
  responses_of [post "https://example.com/a"; post "https://example.com/b"]
    (start_world same_bytes no_picks)
    = Some [short_url "Ab3def12"; short_url "Ab3def12"] /\
  records_of [post "https://example.com/a"; post "https://example.com/b"]
    (start_world same_bytes no_picks)
    = Some [("Ab3def12", "https://example.com/b")].
Proof. repeat split; vm_compute; reflexivity. Qed.




(** C7 — Input validation: Shorten of the empty long URL is answered with
    the validation error and changes nothing: the store, the mutex, the
    count of reads of the randomness source and the log are as before. *)
Theorem shorten_empty_rejected w :
  run (Shorten "") w = Some (HttpError "Long URL cannot be empty" 400, w).
Proof.
  unfold Shorten, shortenURLHandler. cbn [Method Body LongURL].
  rewrite bool_decide_true by done. cbn [negb].
  rewrite decide_True by done. reflexivity.
Qed.

(** C8 — Unknown-code lookup: a code that no response of the server has
    handed out since it started is absent from the store, and resolving it
    is answered with not-found and leaves the state unchanged. *)
Theorem unknown_code_not_found w0 reqs resps w code :
  initial w0 ->
  serve_all reqs w0 = Some (resps, w) ->
  short_url code ∉ resps ->
  urlStore w !! code = None /\
  run (Resolve code) w = Some (HttpError "Short URL not found" 404, w).
Proof.
  intros [Hs Hmu] Hrun Hnot.
  assert (Hnone : urlStore w !! code = None).
  { destruct (urlStore w !! code) as [u|] eqn:Hc; [|done].
    destruct (serve_all_keys _ _ _ _ code Hrun) as [[v Hv]|Hin]; [eauto| |].
    - by rewrite Hs, lookup_empty in Hv.
    - by destruct Hnot. }
  split; [done|].
  rewrite run_Resolve by (apply serve_all_mu in Hrun; congruence).
  by rewrite Hnone.
Qed.

Lemma unknown_code_not_found_witness :
  urlStore after_first !! "zzzzzzzz" = None /\
  run (Resolve "zzzzzzzz") after_first
    = Some (HttpError "Short URL not found" 404, after_first).
Proof.
  apply (unknown_code_not_found (start_world same_bytes no_picks)
           [post "https://example.com/a"] [short_url "Ab3def12"]
           after_first "zzzzzzzz").
  - by split.
  - vm_compute. reflexivity.
  - intros Hin. apply list_elem_of_singleton in Hin. discriminate.
Defined.

(** C10 — Shorten is total on valid input: for every non-empty long URL and
    every state with a free mutex it returns a short code, either the one
    the store holds for the URL or the one just generated; and whatever the
    request, [shortenURLHandler] answers with one of its three validation
    errors or with a short URL, so that no other error can be returned. *)
Theorem shorten_total u w :
  u <> "" -> mu w = false ->
  (exists code w',
     run (Shorten u) w = Some (short_url code, w') /\
     (urlStore w !! code = Some u \/ code = generated w)) /\
  (forall r resp w',
     run (shortenURLHandler r) w = Some (resp, w') ->
     resp = HttpError "Method not allowed" 405 \/
     resp = HttpError "Invalid request body" 400 \/
     resp = HttpError "Long URL cannot be empty" 400 \/
     exists code, resp = short_url code).
Proof.
  intros Hu Hmu. split.
  - destruct (run_Shorten u w Hu Hmu) as [(short & Hs & Hrun)|[_ Hrun]].
    + exists short, (hit w). auto.
    + exists (generated w), (inserted u w). auto.
  - intros r resp w' Hrun.
    apply shortenURLHandler_cases in Hrun
      as [[_ [?|[?|?]]]|[(? & short & _ & _ & _ & _ & -> & _)|
                        (? & _ & _ & _ & _ & -> & _)]]; eauto 6.
Qed.

Lemma shorten_total_witness :
  (exists code w',
     run (Shorten "https://example.com/b") collision_world
       = Some (short_url code, w') /\
     (urlStore collision_world !! code = Some "https://example.com/b" \/
      code = generated collision_world)) /\
  (forall r resp w',
     run (shortenURLHandler r) collision_world = Some (resp, w') ->
     resp = HttpError "Method not allowed" 405 \/
     resp = HttpError "Invalid request body" 400 \/
     resp = HttpError "Long URL cannot be empty" 400 \/
     exists code, resp = short_url code).
Proof.
  apply (shorten_total "https://example.com/b" collision_world);
    [done | reflexivity].
Defined.

(** C9 — Concurrent atomicity of Shorten: n goroutines serve Shorten of the
    same non-empty long URL, starting in a reachable state and interleaved
    in any way.  Every run takes at most 6n steps; at every moment at most
    one goroutine is between [mu.Lock()] and [mu.Unlock()]; a run that can
    go no further has all n handlers returned with one and the same code,
    which is then the only code of the store leading to the long URL; and
    every run can be continued to such an end (no deadlock). *)
Theorem concurrent_shorten u n w sched pool' w' :
  reachable w -> u <> "" ->
  exec_schedule sched (replicate n (Shorten u), w) = Some (pool', w') ->
  length sched <= 6 * n /\
  (exists pcs, pool' = at_pc u <$> pcs /\ sum_list (crit <$> pcs) <= 1) /\
  (quiescent (pool', w') ->
   exists code,
     pool' = replicate n (Ret (short_url code)) /\
     (0 < n -> forall c, urlStore w' !! c = Some u <-> c = code)) /\
  (exists more pool'' w'',
     exec_schedule more (pool', w') = Some (pool'', w'') /\
     quiescent (pool'', w'')).
Proof.
  intros Hreach Hu Hexec.
  pose proof (pool_inv_start u n w (reachable_mu w Hreach)
                (reachable_dedup_inv w Hreach)) as Hinv0.
  change (Shorten u) with (at_pc u PcLock) in Hexec.
  rewrite <- fmap_replicate in Hexec.
  destruct (exec_schedule_inv u Hu sched _ _ _ _ Hexec Hinv0)
    as (pcs & -> & Hinv & Hlen & Hsteps).
  rewrite sum_replicate in Hsteps. rewrite length_replicate in Hlen.
  cbn [steps_left] in Hsteps.
  split; [lia|]. split; [|split].
  - exists pcs. split; [done|].
    rewrite (inv_mutex _ _ _ Hinv). destruct (mu w'); lia.
  - intros Hq.
    pose proof (quiescent_all_done u Hu pcs w' Hinv Hq) as Hz.
    destruct (pool_final u pcs w' Hinv Hz) as (code & Hpcs & Honly).
    rewrite Hlen in Hpcs, Honly. exists code. split; [|done].
    by rewrite Hpcs, fmap_replicate.
  - destruct (pool_completes u Hu _ pcs w' Hinv (Nat.le_refl _))
      as (more & pcs2 & w2 & Hmore & Hz).
    exists more, (at_pc u <$> pcs2), w2. split; [done|].
    by apply all_done_quiescent.
Qed.

Lemma concurrent_shorten_witness :
  length [1; 1; 1; 1; 1; 0; 0; 0] <= 6 * 2 /\
  (exists pcs,
     replicate 2 (Ret (short_url "Ab3def12"))
       = at_pc "https://example.com/a" <$> pcs /\
     sum_list (crit <$> pcs) <= 1) /\
  (quiescent (replicate 2 (Ret (short_url "Ab3def12")), after_two) ->
   exists code,
     replicate 2 (Ret (short_url "Ab3def12"))
       = replicate 2 (Ret (short_url code)) /\
     (0 < 2 -> forall c,
        urlStore after_two !! c = Some "https://example.com/a" <-> c = code)) /\
  (exists more pool'' w'',
     exec_schedule more (replicate 2 (Ret (short_url "Ab3def12")), after_two)
       = Some (pool'', w'') /\
     quiescent (pool'', w'')).
Proof.
  apply (concurrent_shorten "https://example.com/a" 2
           (start_world same_bytes no_picks) [1; 1; 1; 1; 1; 0; 0; 0]
           (replicate 2 (Ret (short_url "Ab3def12"))) after_two).
  - apply reachable_start.
  - done.
  - vm_compute. reflexivity.
Defined.

(** * Further properties of the program *)

(** ** Arithmetic of the encodings *)

Lemma split64 (v : N) :
  (v = 64 * (v / 64) + v mod 64 /\ v mod 64 < 64)%N.
Proof. split; [apply N.div_mod; lia | apply N.mod_lt; lia]. Qed.

Lemma split16 (v : N) :
  (v = 16 * (v / 16) + v mod 16 /\ v mod 16 < 16)%N.
Proof. split; [apply N.div_mod; lia | apply N.mod_lt; lia]. Qed.

Lemma lor_low (x b : N) (k : N) :
  (b < 2 ^ k)%N -> N.lor (x * 2 ^ k) b = (x * 2 ^ k + b)%N.
Proof.
  intros Hb.
  assert (Hland : N.land (x * 2 ^ k) b = 0%N).
  { apply N.bits_inj. intros n. rewrite N.land_spec, N.bits_0.
    destruct (N.lt_ge_cases n k) as [Hlt|Hge].
    - by rewrite N.mul_pow2_bits_low.
    - destruct (decide (b = 0%N)) as [->|Hne].
      { by rewrite N.bits_0, andb_false_r. }
      rewrite (N.bits_above_log2 b n); [by rewrite andb_false_r|].
      apply N.log2_lt_pow2; [lia|].
      eapply N.lt_le_trans; [exact Hb|]. apply N.pow_le_mono_r; lia. }
  rewrite <- N.lxor_lor by done. by rewrite <- N.add_nocarry_lxor.
Qed.

Lemma byte_lt (b : byte) : (Byte.to_N b < 256)%N.
Proof. pose proof (Byte.to_N_bounded b). lia. Qed.

Lemma to_N_inj (b b' : byte) : Byte.to_N b = Byte.to_N b' -> b = b'.
Proof.
  intros H. pose proof (Byte.of_to_N b) as Hb.
  rewrite H, Byte.of_to_N in Hb. by injection Hb.
Qed.

(** The 24-bit group of three bytes, as a number. *)
Lemma group_value (b0 b1 b2 : byte) :
  N.lor (N.lor (N.shiftl (Byte.to_N b0) 16) (N.shiftl (Byte.to_N b1) 8))
        (Byte.to_N b2)
  = (Byte.to_N b0 * 65536 + Byte.to_N b1 * 256 + Byte.to_N b2)%N.
Proof.
  pose proof (byte_lt b0). pose proof (byte_lt b1). pose proof (byte_lt b2).
  rewrite !N.shiftl_mul_pow2.
  rewrite (lor_low (Byte.to_N b0) (Byte.to_N b1 * 2 ^ 8) 16)
    by (change (2 ^ 16)%N with 65536%N; change (2 ^ 8)%N with 256%N; lia).
  change (2 ^ 16)%N with (2 ^ 8 * 2 ^ 8)%N.
  replace (Byte.to_N b0 * (2 ^ 8 * 2 ^ 8) + Byte.to_N b1 * 2 ^ 8)%N
    with ((Byte.to_N b0 * 2 ^ 8 + Byte.to_N b1) * 2 ^ 8)%N by lia.
  rewrite lor_low by (change (2 ^ 8)%N with 256%N; lia).
  change (2 ^ 8)%N with 256%N. lia.
Qed.

Lemma encodeURL_NoDup : NoDup Encoding.encodeURL.
Proof. apply (bool_decide_unpack _). by vm_compute. Qed.

Lemma hexdigits_NoDup : NoDup Encoding.hexdigits.
Proof. apply (bool_decide_unpack _). by vm_compute. Qed.

Lemma enc_mod (v : N) :
  Encoding.enc v = nth (N.to_nat (v mod 64)) Encoding.encodeURL "A"%char.
Proof.
  unfold Encoding.enc. change 63%N with (N.ones 6).
  by rewrite N.land_ones.
Qed.

Lemma enc_in (v : N) : Encoding.enc v ∈ Encoding.encodeURL.
Proof.
  rewrite enc_mod. apply list_elem_of_In, nth_In.
  pose proof (split64 v). change (length Encoding.encodeURL) with 64. lia.
Qed.

Lemma nth_NoDup_inj (l : list ascii) (d : ascii) i j :
  NoDup l -> i < length l -> j < length l ->
  nth i l d = nth j l d -> i = j.
Proof.
  intros Hnd Hi Hj. rewrite !nth_lookup.
  destruct (lookup_lt_is_Some_2 l i Hi) as [x Hx].
  destruct (lookup_lt_is_Some_2 l j Hj) as [y Hy].
  rewrite Hx, Hy. cbn. intros ->. by eapply NoDup_lookup.
Qed.

Lemma enc_inj (v v' : N) :
  Encoding.enc v = Encoding.enc v' -> (v mod 64 = v' mod 64)%N.
Proof.
  rewrite !enc_mod. intros H.
  pose proof (split64 v). pose proof (split64 v').
  apply nth_NoDup_inj in H;
    [lia | apply encodeURL_NoDup | |];
    change (length Encoding.encodeURL) with 64; lia.
Qed.

Lemma shiftr_6 (v : N) : N.shiftr v 6 = (v / 64)%N.
Proof. by rewrite N.shiftr_div_pow2. Qed.

Lemma shiftr_12 (v : N) : N.shiftr v 12 = (v / 64 / 64)%N.
Proof. rewrite N.shiftr_div_pow2, N.Div0.div_div. done. Qed.

Lemma shiftr_18 (v : N) : N.shiftr v 18 = (v / 64 / 64 / 64)%N.
Proof. rewrite N.shiftr_div_pow2, !N.Div0.div_div. done. Qed.

(** The four characters of a group determine its three bytes. *)
Lemma group_inj (b0 b1 b2 c0 c1 c2 : byte) :
  let v := N.lor (N.lor (N.shiftl (Byte.to_N b0) 16)
                        (N.shiftl (Byte.to_N b1) 8)) (Byte.to_N b2) in
  let v' := N.lor (N.lor (N.shiftl (Byte.to_N c0) 16)
                         (N.shiftl (Byte.to_N c1) 8)) (Byte.to_N c2) in
  Encoding.enc (N.shiftr v 18) = Encoding.enc (N.shiftr v' 18) ->
  Encoding.enc (N.shiftr v 12) = Encoding.enc (N.shiftr v' 12) ->
  Encoding.enc (N.shiftr v 6) = Encoding.enc (N.shiftr v' 6) ->
  Encoding.enc v = Encoding.enc v' ->
  b0 = c0 /\ b1 = c1 /\ b2 = c2.
Proof.
  intros v v'. subst v v'. rewrite !group_value.
  rewrite !shiftr_18, !shiftr_12, !shiftr_6.
  set (v := (Byte.to_N b0 * 65536 + Byte.to_N b1 * 256 + Byte.to_N b2)%N).
  set (v' := (Byte.to_N c0 * 65536 + Byte.to_N c1 * 256 + Byte.to_N c2)%N).
  intros H3 H2 H1 H0.
  apply enc_inj in H3, H2, H1, H0.
  pose proof (byte_lt b0). pose proof (byte_lt b1). pose proof (byte_lt b2).
  pose proof (byte_lt c0). pose proof (byte_lt c1). pose proof (byte_lt c2).
  assert (Hv : v = v').
  { pose proof (split64 v). pose proof (split64 v').
    pose proof (split64 (v / 64)). pose proof (split64 (v' / 64)).
    pose proof (split64 (v / 64 / 64)). pose proof (split64 (v' / 64 / 64)).
    pose proof (split64 (v / 64 / 64 / 64)).
    pose proof (split64 (v' / 64 / 64 / 64)).
    subst v v'. lia. }
  subst v v'. repeat split; apply to_N_inj; lia.
Qed.

Lemma hexdigit_value (n : N) :
  Encoding.hexdigit n = nth (N.to_nat n) Encoding.hexdigits "0"%char.
Proof. reflexivity. Qed.

Lemma hex_of_byte_inj (b c : byte) :
  Encoding.hex_of_byte b = Encoding.hex_of_byte c -> b = c.
Proof.
  unfold Encoding.hex_of_byte. change 15%N with (N.ones 4).
  rewrite !N.land_ones, !N.shiftr_div_pow2.
  change (2 ^ 4)%N with 16%N. intros [= Hhi Hlo].
  apply to_N_inj.
  pose proof (byte_lt b). pose proof (byte_lt c).
  destruct (split16 (Byte.to_N b)) as [Hb ?].
  destruct (split16 (Byte.to_N c)) as [Hc ?].
  rewrite !hexdigit_value in Hhi, Hlo.
  set (qb := (Byte.to_N b / 16)%N) in *.
  set (rb := (Byte.to_N b mod 16)%N) in *.
  set (qc := (Byte.to_N c / 16)%N) in *.
  set (rc := (Byte.to_N c mod 16)%N) in *.
  clearbody qb rb qc rc.
  apply nth_NoDup_inj in Hhi;
    [| apply hexdigits_NoDup
     | change (length Encoding.hexdigits) with 16; lia
     | change (length Encoding.hexdigits) with 16; lia].
  apply nth_NoDup_inj in Hlo;
    [| apply hexdigits_NoDup
     | change (length Encoding.hexdigits) with 16; lia
     | change (length Encoding.hexdigits) with 16; lia].
  lia.
Qed.

Lemma hex_of_byte_safe (b : byte) :
  Forall (fun c => c ∈ Encoding.encodeURL) (Encoding.hex_of_byte b).
Proof. destruct b; apply (bool_decide_unpack _); by vm_compute. Qed.

Lemma list_eight {A} (l : list A) :
  length l = 8 ->
  exists a0 a1 a2 a3 a4 a5 a6 a7, l = [a0; a1; a2; a3; a4; a5; a6; a7].
Proof.
  intros H. do 8 (destruct l as [|? l]; [discriminate|]).
  destruct l; [|discriminate]. by do 8 eexists.
Qed.

Lemma fill_length n d : length (fill n d) = n.
Proof.
  unfold fill. rewrite length_take, length_app, length_replicate. lia.
Qed.

Lemma fill_enough n d : n <= length d -> fill n d = take n d.
Proof. intros H. unfold fill. by rewrite take_app_le. Qed.

Lemma slice_sprintf_x (b0 b1 b2 b3 b4 b5 b6 b7 : byte) :
  Encoding.slice_to shortCodeLength
    (Encoding.sprintf_x [b0; b1; b2; b3; b4; b5; b6; b7])
  = String.string_of_list_ascii
      (Encoding.hex_of_byte b0 ++ Encoding.hex_of_byte b1 ++
       Encoding.hex_of_byte b2 ++ Encoding.hex_of_byte b3).
Proof. reflexivity. Qed.

Lemma slice_EncodeToString (b0 b1 b2 b3 b4 b5 b6 b7 : byte) :
  Encoding.slice_to shortCodeLength
    (Encoding.EncodeToString [b0; b1; b2; b3; b4; b5; b6; b7])
  = String.string_of_list_ascii (group_chars b0 b1 b2 ++ group_chars b3 b4 b5).
Proof. reflexivity. Qed.

Lemma string_of_list_ascii_inj l1 l2 :
  String.string_of_list_ascii l1 = String.string_of_list_ascii l2 -> l1 = l2.
Proof.
  intros H. apply (f_equal String.list_ascii_of_string) in H.
  by rewrite !String.list_ascii_of_string_of_list_ascii in H.
Qed.

Lemma group_chars_inj b0 b1 b2 c0 c1 c2 :
  group_chars b0 b1 b2 = group_chars c0 c1 c2 ->
  b0 = c0 /\ b1 = c1 /\ b2 = c2.
Proof. intros [= H3 H2 H1 H0]. by apply group_inj. Qed.

Lemma group_chars_safe b0 b1 b2 :
  Forall (fun c => c ∈ Encoding.encodeURL) (group_chars b0 b1 b2).
Proof. unfold group_chars. do 4 (constructor; [apply enc_in|]). constructor. Qed.

(** ** Further properties of the handlers *)

Lemma generated_shape w :
  String.length (generated w) = shortCodeLength /\ url_safe (generated w).
Proof.
  unfold generated, url_safe.
  destruct (list_eight (fill shortCodeLength (entropy w (rand_calls w)))
              (fill_length _ _))
    as (b0 & b1 & b2 & b3 & b4 & b5 & b6 & b7 & ->).
  destruct (read_failed _ _).
  - rewrite slice_sprintf_x. split; [reflexivity|].
    rewrite String.list_ascii_of_string_of_list_ascii.
    repeat (apply Forall_app; split); apply hex_of_byte_safe.
  - rewrite slice_EncodeToString. split; [reflexivity|].
    rewrite String.list_ascii_of_string_of_list_ascii.
    apply Forall_app; split; apply group_chars_safe.
Qed.

Lemma reachable_after_first : reachable after_first.
Proof.
  exists (start_world same_bytes no_picks),
    [post "https://example.com/a"], [short_url "Ab3def12"].
  split; [by split|]. vm_compute. reflexivity.
Qed.

(** X1 — Shape of a generated code: in every environment
    [generateShortCode] returns a code of exactly eight characters, all of
    them from the URL-safe base64 alphabet, on the regular and on the
    fallback branch alike. *)
Theorem generated_code_shape w :
  exists code w',
    run generateShortCode w = Some (code, w') /\
    String.length code = shortCodeLength /\ url_safe code.
Proof.
  rewrite run_generateShortCode. exists (generated w), (after_generate w).
  split; [done|]. apply generated_shape.
Qed.

(** X2 — When both reads of the randomness source succeed, the two
    generated codes are equal exactly when the first six delivered bytes
    are equal: cutting the encoding to eight characters keeps 48 of the 64
    random bits. *)
Theorem code_of_six_bytes w1 w2 :
  shortCodeLength <= length (entropy w1 (rand_calls w1)) ->
  shortCodeLength <= length (entropy w2 (rand_calls w2)) ->
  fst <$> run generateShortCode w1 = fst <$> run generateShortCode w2 <->
  take 6 (entropy w1 (rand_calls w1)) = take 6 (entropy w2 (rand_calls w2)).
Proof.
  intros H1 H2. rewrite !run_generateShortCode. cbn [fmap option_fmap option_map fst].
  unfold generated, read_failed.
  rewrite !bool_decide_false by lia. rewrite !fill_enough by done.
  replace (take 6 (entropy w1 (rand_calls w1)))
    with (take 6 (take shortCodeLength (entropy w1 (rand_calls w1))))
    by (rewrite take_take; f_equal).
  replace (take 6 (entropy w2 (rand_calls w2)))
    with (take 6 (take shortCodeLength (entropy w2 (rand_calls w2))))
    by (rewrite take_take; f_equal).
  destruct (list_eight (take shortCodeLength (entropy w1 (rand_calls w1))))
    as (b0 & b1 & b2 & b3 & b4 & b5 & b6 & b7 & ->);
    [rewrite length_take; unfold shortCodeLength in *; lia|].
  destruct (list_eight (take shortCodeLength (entropy w2 (rand_calls w2))))
    as (c0 & c1 & c2 & c3 & c4 & c5 & c6 & c7 & ->);
    [rewrite length_take; unfold shortCodeLength in *; lia|].
  rewrite !slice_EncodeToString. cbn [take]. split.
  - intros H. apply (inj Some) in H. apply string_of_list_ascii_inj in H.
    apply app_inj_1 in H as [Ha Hb]; [|done].
    apply group_chars_inj in Ha as (-> & -> & ->).
    apply group_chars_inj in Hb as (-> & -> & ->). done.
  - by intros [= -> -> -> -> -> ->].
Qed.

Lemma code_of_six_bytes_witness :
  fst <$> run generateShortCode (start_world same_bytes no_picks)
  = fst <$> run generateShortCode
              (start_world (fun _ => other_tail_bytes) no_picks).
Proof.
  apply (code_of_six_bytes (start_world same_bytes no_picks)
           (start_world (fun _ => other_tail_bytes) no_picks));
    [vm_compute; lia | vm_compute; lia | reflexivity].
Defined.

(** X3 — When both reads fail, the two fallback codes are equal exactly
    when the first four bytes of the two buffers are equal: the code is the
    hexadecimal form of these four bytes. *)
Theorem fallback_code_of_four_bytes w1 w2 :
  length (entropy w1 (rand_calls w1)) < shortCodeLength ->
  length (entropy w2 (rand_calls w2)) < shortCodeLength ->
  fst <$> run generateShortCode w1 = fst <$> run generateShortCode w2 <->
  take 4 (fill shortCodeLength (entropy w1 (rand_calls w1)))
  = take 4 (fill shortCodeLength (entropy w2 (rand_calls w2))).
Proof.
  intros H1 H2. rewrite !run_generateShortCode. cbn [fmap option_fmap option_map fst].
  unfold generated, read_failed.
  rewrite !bool_decide_true by lia.
  destruct (list_eight (fill shortCodeLength (entropy w1 (rand_calls w1)))
              (fill_length _ _))
    as (b0 & b1 & b2 & b3 & b4 & b5 & b6 & b7 & ->).
  destruct (list_eight (fill shortCodeLength (entropy w2 (rand_calls w2)))
              (fill_length _ _))
    as (c0 & c1 & c2 & c3 & c4 & c5 & c6 & c7 & ->).
  rewrite !slice_sprintf_x. cbn [take]. split.
  - intros H. apply (inj Some) in H. apply string_of_list_ascii_inj in H.
    apply app_inj_1 in H as [Ha H]; [|done].
    apply app_inj_1 in H as [Hb H]; [|done].
    apply app_inj_1 in H as [Hc Hd]; [|done].
    apply hex_of_byte_inj in Ha, Hb, Hc, Hd. by subst.
  - by intros [= -> -> -> ->].
Qed.

Lemma fallback_code_of_four_bytes_witness :
  fst <$> run generateShortCode (start_world no_entropy no_picks)
  = fst <$> run generateShortCode
              (start_world (fun _ => short_delivery) no_picks).
Proof.
  apply (fallback_code_of_four_bytes (start_world no_entropy no_picks)
           (start_world (fun _ => short_delivery) no_picks));
    [vm_compute; lia | vm_compute; lia | reflexivity].
Defined.

(** X4 — Whatever the request and the route, an answer other than a
    JSON short URL (an HTTP error, a redirect, a panic) comes with the
    state exactly as it was. *)
Theorem only_short_urls_change_state r w resp w' :
  run (serve r) w = Some (resp, w') ->
  (forall body, resp <> JsonBody body) ->
  w' = w.
Proof.
  unfold serve. case_decide.
  - intros Hrun Hresp. apply shortenURLHandler_cases in Hrun
      as [[-> _]|[(u & short & _ & _ & _ & _ & -> & _)|
                  (u & _ & _ & _ & _ & -> & _)]]; [done| |];
      exfalso; eapply Hresp; reflexivity.
  - intros Hrun _. by apply redirectHandler_cases in Hrun as [-> _].
Qed.

Lemma only_short_urls_change_state_witness : after_first = after_first.
Proof.
  apply (only_short_urls_change_state (get_path "/zzzzzzzz") after_first
           (HttpError "Short URL not found" 404) after_first);
    [reflexivity | discriminate].
Defined.

(** X5 — With the mutex free, every request is answered, and the mutex
    is free again when the handler returns: each return path after
    [mu.Lock()] releases it. *)
Theorem serve_returns_unlocked r w :
  mu w = false ->
  exists resp w', run (serve r) w = Some (resp, w') /\ mu w' = false.
Proof.
  intros Hmu. unfold serve. case_decide.
  - unfold shortenURLHandler. destruct (negb _); [by eauto|].
    destruct (Body r) as [[u]|]; [|by eauto].
    cbn [LongURL]. case_decide; [by eauto|].
    rewrite run_locked, Hmu, run_shorten_locked.
    destruct (find_existing _ _); cbn [mu tick_range set_mu set_store];
      rewrite ?after_generate_mu; cbn [mu tick_range set_mu]; eauto.
  - unfold redirectHandler. destruct (Path r) as [|a code]; [by eauto|].
    cbn [run exec_cmd]. rewrite Hmu. cbn [mu set_mu urlStore].
    destruct (urlStore w !! code); eauto.
Qed.

Lemma serve_returns_unlocked_witness :
  exists resp w',
    run (serve (post "https://example.com/b")) after_first = Some (resp, w') /\
    mu w' = false.
Proof.
  apply (serve_returns_unlocked (post "https://example.com/b") after_first).
  reflexivity.
Defined.



(** X7 — [redirectHandler] looks at nothing but the path: whatever the
    method and the body, it drops the first byte of the path unchecked,
    redirects with 302 to what the store holds for the rest, answers 404
    when the store holds nothing, and leaves the state as it was. *)
Theorem redirect_any_method r a code w :
  Path r = String a code -> mu w = false ->
  run (redirectHandler r) w =
  Some (match urlStore w !! code with
        | Some longURL => HttpRedirect longURL 302
        | None => HttpError "Short URL not found" 404
        end, w).
Proof.
  intros Hpath Hmu. unfold redirectHandler. rewrite Hpath.
  cbn [run exec_cmd]. rewrite Hmu. cbn [mu set_mu urlStore].
  rewrite (unlock_lock_id w Hmu). by destruct (urlStore w !! code).
Qed.

Lemma redirect_any_method_witness :
  run (redirectHandler
         {| Method := "DELETE"; Body := None; Path := "xAb3def12" |})
      after_first
  = Some (HttpRedirect "https://example.com/a" 302, after_first).
Proof.
  apply (redirect_any_method
           {| Method := "DELETE"; Body := None; Path := "xAb3def12" |}
           "x"%char "Ab3def12" after_first);
    reflexivity.
Defined.

(** X8 — Every record of a reachable store is well formed: its code has
    eight URL-safe characters and its long URL is not empty. *)
Theorem stored_records_well_formed w c u :
  reachable w -> urlStore w !! c = Some u ->
  String.length c = shortCodeLength /\ url_safe c /\ u <> "".
Proof.
  intros (w0 & reqs & resps & [Hs _] & Hrun). revert c u.
  eapply (serve_all_ind (fun x => forall c u, urlStore x !! c = Some u ->
            String.length c = shortCodeLength /\ url_safe c /\ u <> ""));
    [|exact Hrun|].
  - intros r w1 resp w2 Hr IH c u.
    apply serve_step in Hr as [_ [[-> _]|(v & Hv & _ & _ & ->)]]; [apply IH|].
    rewrite lookup_insert. case_decide as Hc; [|apply IH].
    intros [= <-]. subst c.
    destruct (generated_shape w1) as [Hlen Hsafe]. done.
  - intros c u. by rewrite Hs, lookup_empty.
Qed.

Lemma stored_records_well_formed_witness :
  String.length "Ab3def12" = shortCodeLength /\ url_safe "Ab3def12" /\
  "https://example.com/a" <> "".
Proof.
  apply (stored_records_well_formed after_first "Ab3def12"
           "https://example.com/a");
    [apply reachable_after_first | reflexivity].
Defined.

Lemma reachable_code_length w c :
  reachable w -> is_Some (urlStore w !! c) -> String.length c = shortCodeLength.
Proof.
  intros (w0 & reqs & resps & [Hs _] & Hrun). revert c.
  eapply (serve_all_ind (fun x => forall c, is_Some (urlStore x !! c) ->
            String.length c = shortCodeLength)); [|exact Hrun|].
  - intros r w1 resp w2 Hr IH c.
    apply serve_step in Hr as [_ [[-> _]|(v & Hv & _ & _ & ->)]]; [apply IH|].
    rewrite lookup_insert. case_decide as Hc; [|apply IH].
    intros _. subst c. apply generated_shape.
  - intros c. rewrite Hs, lookup_empty. by intros [? ?].
Qed.

(** X9 — Round trip through the routes of [main]: in a reachable state a
    POST to /shorten with a non-empty long URL is answered with a short
    URL, and afterwards a request for the path of that code, whatever its
    method and body, reaches [redirectHandler] and is redirected to the
    long URL; no code collides with the route /shorten. *)
Theorem router_round_trip u w :
  reachable w -> u <> "" ->
  exists code w1,
    run (serve (post u)) w = Some (short_url code, w1) /\
    forall m body,
      run (serve {| Method := m; Body := body; Path := "/" +:+ code |}) w1
      = Some (HttpRedirect u 302, w1).
Proof.
  intros Hreach Hu. pose proof (reachable_mu w Hreach) as Hmu.
  assert (exists code w1,
    run (Shorten u) w = Some (short_url code, w1) /\ mu w1 = false /\
    urlStore w1 !! code = Some u /\ String.length code = shortCodeLength)
    as (code & w1 & Hrun & Hmu1 & Hcode & Hlen).
  { destruct (run_Shorten u w Hu Hmu) as [(short & Hs & Hrun)|[_ Hrun]].
    - exists short, (hit w). repeat split; try done.
      apply (reachable_code_length w); eauto.
    - exists (generated w), (inserted u w). repeat split; try done.
      + rewrite inserted_store. apply lookup_insert_eq.
      + apply generated_shape. }
  exists code, w1. split.
  { unfold serve. cbn [post Path]. by rewrite decide_True. }
  intros m body. unfold serve. cbn [Path].
  change ("/" +:+ code) with (String "/" code).
  rewrite decide_False.
  - unfold redirectHandler. cbn [Path run exec_cmd]. rewrite Hmu1.
    cbn [mu set_mu urlStore]. rewrite Hcode. by rewrite (unlock_lock_id w1).
  - intros [= ->]. discriminate Hlen.
Qed.

Lemma router_round_trip_witness :
  exists code w1,
    run (serve (post "https://example.com/a"))
        (start_world same_bytes no_picks)
      = Some (short_url code, w1) /\
    forall m body,
      run (serve {| Method := m; Body := body; Path := "/" +:+ code |}) w1
      = Some (HttpRedirect "https://example.com/a" 302, w1).
Proof.
  apply (router_round_trip "https://example.com/a"
           (start_world same_bytes no_picks));
    [apply reachable_start | done].
Defined.

(** X10 — In a reachable state the answer of Shorten and the store it
    leaves do not depend on the order in which the runtime iterates over
    the map. *)
Theorem shorten_independent_of_iteration_order u w picks :
  reachable w ->
  exists resp w1 w2,
    run (Shorten u) w = Some (resp, w1) /\
    run (Shorten u) (set_picks picks w) = Some (resp, w2) /\
    urlStore w2 = urlStore w1.
Proof.
  intros Hreach.
  pose proof (reachable_mu w Hreach) as Hmu.
  pose proof (reachable_dedup_inv w Hreach) as Hdedup.
  destruct (decide (u = "")) as [->|Hu].
  { by exists (HttpError "Long URL cannot be empty" 400), w, (set_picks picks w). }
  destruct (run_Shorten u w Hu Hmu) as [(c1 & Hc1 & Hrun1)|[Hnone1 Hrun1]];
    destruct (run_Shorten u (set_picks picks w) Hu Hmu)
      as [(c2 & Hc2 & Hrun2)|[Hnone2 Hrun2]];
    cbn [urlStore set_picks] in *.
  - rewrite (Hdedup _ _ _ Hc2 Hc1) in Hrun2. by eexists _, _, _.
  - by destruct (Hnone2 c1).
  - by destruct (Hnone1 c2).
  - by eexists _, _, _.
Qed.

Lemma shorten_independent_of_iteration_order_witness :
  exists resp w1 w2,
    run (Shorten "https://example.com/a") after_first = Some (resp, w1) /\
    run (Shorten "https://example.com/a") (set_picks other_picks after_first)
      = Some (resp, w2) /\
    urlStore w2 = urlStore w1.
Proof.
  apply (shorten_independent_of_iteration_order "https://example.com/a"
           after_first other_picks).
  apply reachable_after_first.
Defined.

(** X11 — Over any sequence of requests the store never shrinks, it
    gains at most one record per read of the randomness source, and each
    request reads the source at most once. *)
Theorem store_growth_accounting reqs w resps w' :
  serve_all reqs w = Some (resps, w') ->
  size (urlStore w) <= size (urlStore w') /\
  size (urlStore w') + rand_calls w <= size (urlStore w) + rand_calls w' /\
  rand_calls w' <= rand_calls w + length reqs.
Proof.
  revert w resps. induction reqs as [|r rest IH]; intros w resps.
  - intros [= _ <-]. cbn. lia.
  - cbn [serve_all]. destruct (run (serve r) w) as [[resp w1]|] eqn:Hr; [|done].
    destruct (serve_all rest w1) as [[resps' w2]|] eqn:Hrest; [|done].
    intros [= _ <-]. specialize (IH _ _ Hrest). cbn [length].
    assert (size (urlStore w) <= size (urlStore w1) /\
            size (urlStore w1) + rand_calls w
              <= size (urlStore w) + rand_calls w1 /\
            rand_calls w1 <= S (rand_calls w)) as Hstep; [|lia].
    clear IH Hrest. unfold serve in Hr. case_decide.
    + apply shortenURLHandler_cases in Hr
        as [[-> _]|[(u & short & _ & _ & _ & _ & _ & ->)|
                    (u & _ & _ & _ & _ & _ & ->)]]; [lia|cbn; lia|].
      rewrite inserted_store, inserted_rand_calls.
      destruct (urlStore w !! generated w) as [old|] eqn:Hold.
      * rewrite map_size_insert_Some by eauto. lia.
      * rewrite map_size_insert_None by done. lia.
    + apply redirectHandler_cases in Hr as [-> _]. lia.
Qed.

Lemma store_growth_accounting_witness :
  size (urlStore (start_world same_bytes no_picks))
    <= size (urlStore after_second) /\
  size (urlStore after_second) + rand_calls (start_world same_bytes no_picks)
    <= size (urlStore (start_world same_bytes no_picks))
       + rand_calls after_second /\
  rand_calls after_second
    <= rand_calls (start_world same_bytes no_picks)
       + length [post "https://example.com/a"; post "https://example.com/b"].
Proof.
  apply (store_growth_accounting
           [post "https://example.com/a"; post "https://example.com/b"]
           (start_world same_bytes no_picks)
           [short_url "Ab3def12"; short_url "Ab3def12"] after_second).
  vm_compute. reflexivity.
Defined.

(** ** Concurrent requests in general *)

Lemma in_cs_bind (p : Prog Response) :
  lock_free p -> in_cs (bind p unlock_then).
Proof.
  induction p as [r|X c k IH]; cbn.
  - intros _ x. by exists r.
  - intros [-> Hk] x. by apply IH.
Qed.

Lemma lock_free_shorten_locked req : lock_free (shorten_locked req).
Proof.
  unfold shorten_locked. cbn. split; [done|]. intros entries.
  destruct (find_existing _ _); cbn; [done|].
  split; [done|]. intros res. by destruct (snd res); cbn.
Qed.

Lemma serve_shape r :
  (exists e, serve r = Ret e) \/
  (exists k, serve r = Do MuLock k /\ in_cs (k tt)).
Proof.
  unfold serve. case_decide.
  - unfold shortenURLHandler. destruct (negb _); [by eauto|].
    destruct (Body r) as [req|]; [|by eauto].
    case_decide; [by eauto|]. right. unfold locked. eexists. split; [done|].
    apply (in_cs_bind _ (lock_free_shorten_locked req)).
  - unfold redirectHandler. destruct (Path r) as [|a code]; [by eauto|].
    right. eexists. split; [done|]. cbn. intros res _.
    destruct res; eauto.
Qed.

Lemma serve_within r : within 6 (serve r).
Proof.
  unfold serve. case_decide.
  - unfold shortenURLHandler. destruct (negb _); [done|].
    destruct (Body r) as [req|]; [|done].
    case_decide; [done|]. cbn. intros _ entries.
    destruct (find_existing _ _); cbn; [done|].
    intros res. destruct (snd res); cbn; done.
  - unfold redirectHandler. destruct (Path r) as [|a code]; [done|].
    cbn. intros _ res _. by destruct res.
Qed.

Lemma exec_other {X} (c : Cmd X) w :
  kind_of c = KOther ->
  exists x w', exec_cmd c w = Some (x, w') /\ mu w' = mu w.
Proof. destruct c; cbn; intros; try done; eauto. Qed.

Lemma serve_all_app reqs1 reqs2 w resps1 w1 resps2 w2 :
  serve_all reqs1 w = Some (resps1, w1) ->
  serve_all reqs2 w1 = Some (resps2, w2) ->
  serve_all (reqs1 ++ reqs2)%list w = Some ((resps1 ++ resps2)%list, w2).
Proof.
  revert w resps1. induction reqs1 as [|q rest IH]; intros w resps1.
  - by intros [= <- <-] Hr.
  - cbn [serve_all app]. destruct (run (serve q) w) as [[a wa]|]; [|done].
    destruct (serve_all rest wa) as [[resps' wb]|] eqn:Hrest; [|done].
    intros [= <- <-] Hr. by rewrite (IH _ _ Hrest Hr).
Qed.

Lemma in_cs_step {X} (c : Cmd X) (k : X -> Prog Response) w :
  in_cs (Do c k) -> mu w = true ->
  exists x w', exec_cmd c w = Some (x, w') /\
    ((exists r, k x = Ret r /\ mu w' = false) \/
     (in_cs (k x) /\ mu w' = true)).
Proof.
  destruct c; cbn; intros Hcs Hmu; try done.
  - rewrite Hmu. exists tt, (set_mu false w). split; [done|]. left.
    destruct (Hcs tt) as [r Hr]. eauto.
  - eexists _, _. split; [done|]. right. auto.
  - eexists _, _. split; [done|]. right. auto.
  - eexists _, _. split; [done|]. right. auto.
  - eexists _, _. split; [done|]. right. auto.
  - eexists _, _. split; [done|]. right. auto.
Qed.

Lemma lin_index_elem (lin : list (nat * Request * Response)) i :
  i ∈ lin.*1.*1 -> exists r resp, (i, r, resp) ∈ lin.
Proof.
  intros Hin. apply list_elem_of_fmap in Hin as ([i' r] & -> & Hin).
  apply list_elem_of_fmap in Hin as ([[i'' r'] resp] & [= -> ->] & Hin).
  eauto.
Qed.

Lemma lin_elem_index (lin : list (nat * Request * Response)) i r resp :
  (i, r, resp) ∈ lin -> i ∈ lin.*1.*1.
Proof.
  intros Hin. apply list_elem_of_fmap. exists (i, r). split; [done|].
  apply list_elem_of_fmap. by exists (i, r, resp).
Qed.

Section Linearize.
Variable reqs : list Request.
Variable w0 : World.
Hypothesis w0_free : mu w0 = false.

Lemma lin_inv_start : lin_inv reqs w0 (serve <$> reqs) w0.
Proof.
  exists [], w0. split; [by rewrite length_fmap|]. split; [constructor|].
  split; [done|]. split; [intros i r resp Hin; by apply elem_of_nil in Hin|].
  left. split; [done|]. split; [done|].
  intros i r _ _ Hr. by rewrite list_lookup_fmap, Hr.
Qed.

Lemma lin_inv_step i pool w cfg' :
  lin_inv reqs w0 pool w -> thread_step i (pool, w) = Some cfg' ->
  lin_inv reqs w0 (fst cfg') (snd cfg').
Proof.
  intros (lin & wl & Hlen & Hnd & Hseq & Hdone & Hcase) Hstep.
  unfold thread_step in Hstep. cbn [fst snd] in Hstep.
  destruct (pool !! i) as [p|] eqn:Hi; [|done].
  assert (Hlt : i < length reqs)
    by (rewrite <- Hlen; by eapply lookup_lt_Some).
  destruct (lookup_lt_is_Some_2 reqs i Hlt) as [r Hr].
  destruct (decide (i ∈ lin.*1.*1)) as [Hin|Hnin].
  { apply lin_index_elem in Hin as (r' & resp & Hin).
    destruct (Hdone _ _ _ Hin) as [_ Hret]. by simplify_eq. }
  assert (Hkeep : forall j q resp, (j, q, resp) ∈ lin -> j <> i).
  { intros j q resp Hj ->. apply Hnin. by eapply lin_elem_index. }
  destruct Hcase as [(Hmu & -> & Hidle)|
                     (h & rh & ph & Hh & Hrh & Hph & Hcs & Hmu & Hrun & Hidle)].
  - (* the mutex is free: goroutine [i] takes it *)
    rewrite (Hidle i r Hnin ltac:(done) Hr) in Hi. simplify_eq.
    destruct (serve_shape r) as [[e He]|(k & Hk & Hcsk)];
      rewrite ?He, ?Hk in Hstep; [done|].
    cbn [exec_cmd] in Hstep. rewrite Hmu in Hstep. simplify_eq. cbn [fst snd].
    exists lin, wl. split; [by rewrite length_insert|]. split; [done|].
    split; [done|]. split.
    { intros j q resp Hj. destruct (Hdone _ _ _ Hj) as [? ?].
      split; [done|]. rewrite list_lookup_insert_ne; [done|].
      intros ->. by eapply Hkeep. }
    right. exists i, r, (k tt). split; [done|]. split; [done|].
    split; [apply list_lookup_insert_eq; by rewrite Hlen|].
    split; [done|]. split; [done|]. split.
    + rewrite Hk. cbn [run exec_cmd]. by rewrite Hmu.
    + intros j q Hj Hne Hq. rewrite list_lookup_insert_ne by congruence.
      by apply Hidle.
  - destruct (decide (i = h)) as [->|Hne].
    + (* the holder goes on *)
      assert (p = ph) as -> by congruence.
      assert (rh = r) as -> by congruence.
      destruct ph as [e|X c k]; [done|].
      destruct (in_cs_step c k w Hcs Hmu)
        as (x & w' & Hexec & [(r0 & Hk & Hmu')|[Hcs' Hmu']]);
        rewrite Hexec in Hstep; simplify_eq; cbn [fst snd].
      * (* it releases the mutex and returns *)
        assert (Hret : run (serve r) wl = Some (r0, w')).
        { rewrite <- Hrun. cbn [run]. by rewrite Hexec, Hk. }
        exists (lin ++ [(h, r, r0)])%list, w'.
        rewrite !fmap_app. cbn [fmap list_fmap fst snd].
        split; [by rewrite length_insert|]. split.
        { apply NoDup_app. split; [done|]. split; [|apply NoDup_singleton].
          intros j Hj Hj'. apply list_elem_of_singleton in Hj'. by subst. }
        split.
        { eapply serve_all_app; [exact Hseq|]. cbn [serve_all].
          by rewrite Hret. }
        split.
        { intros j q resp Hj. apply elem_of_app in Hj as [Hj|Hj].
          - destruct (Hdone _ _ _ Hj) as [? ?]. split; [done|].
            rewrite list_lookup_insert_ne; [done|].
            intros ->. by eapply Hkeep.
          - apply list_elem_of_singleton in Hj. simplify_eq.
            split; [done|]. rewrite Hk.
            apply list_lookup_insert_eq. by rewrite Hlen. }
        left. split; [done|]. split; [done|].
        intros j q Hj _ Hq. rewrite !fmap_app in Hj.
        cbn [fmap list_fmap fst snd] in Hj. rewrite not_elem_of_app in Hj.
        destruct Hj as [Hj Hjh]. rewrite list_elem_of_singleton in Hjh.
        rewrite list_lookup_insert_ne by congruence.
        apply Hidle; [done|congruence|done].
      * (* it stays inside the critical section *)
        exists lin, wl. split; [by rewrite length_insert|]. split; [done|].
        split; [done|]. split.
        { intros j q resp Hj. destruct (Hdone _ _ _ Hj) as [? ?].
          split; [done|]. rewrite list_lookup_insert_ne; [done|].
          intros ->. by eapply Hkeep. }
        right. exists h, r, (k x). split; [done|]. split; [done|].
        split; [apply list_lookup_insert_eq; by rewrite Hlen|].
        split; [done|]. split; [done|]. split.
        -- rewrite <- Hrun. cbn [run]. by rewrite Hexec.
        -- intros j q Hj Hjh Hq. rewrite list_lookup_insert_ne by congruence.
           by apply Hidle.
    + (* any other goroutine waits for the mutex *)
      rewrite (Hidle i r Hnin ltac:(congruence) Hr) in Hi. simplify_eq.
      destruct (serve_shape r) as [[e He]|(k & Hk & Hcsk)];
        rewrite ?He, ?Hk in Hstep; [done|].
      cbn [exec_cmd] in Hstep. by rewrite Hmu in Hstep.
Qed.

Lemma lin_inv_exec sched : forall pool w pool' w',
  lin_inv reqs w0 pool w ->
  exec_schedule sched (pool, w) = Some (pool', w') ->
  lin_inv reqs w0 pool' w'.
Proof.
  induction sched as [|i rest IH]; intros pool w pool' w' Hinv Hexec.
  - cbn in Hexec. by simplify_eq.
  - cbn [exec_schedule] in Hexec.
    destruct (thread_step i (pool, w)) as [[pool1 w1]|] eqn:Hstep; [|done].
    eapply IH; [|exact Hexec]. apply (lin_inv_step i pool w _ Hinv Hstep).
Qed.
End Linearize.

(** *** Termination *)

Lemma sum_list_insert (l : list nat) i n m :
  l !! i = Some n -> sum_list (<[i := m]> l) + n = sum_list l + m.
Proof.
  intros H. pose proof (sum_insert id l i n m H) as Hs.
  by rewrite !list_fmap_id in Hs.
Qed.

Lemma fuel_step (fuel : list nat) i pool w pool' w' :
  Forall2 within fuel pool ->
  thread_step i (pool, w) = Some (pool', w') ->
  exists fuel', Forall2 within fuel' pool' /\
    S (sum_list fuel') = sum_list fuel.
Proof.
  intros Hfuel Hstep. unfold thread_step in Hstep. cbn [fst snd] in Hstep.
  destruct (pool !! i) as [[e|X c k]|] eqn:Hi; try done.
  destruct (exec_cmd c w) as [[x w1]|] eqn:Hexec; [|done]. simplify_eq.
  destruct (Forall2_lookup_r _ _ _ _ _ Hfuel Hi) as (n & Hn & Hwithin).
  destruct n as [|m]; [done|]. cbn in Hwithin.
  exists (<[i := m]> fuel). split.
  - apply Forall2_insert; [done|apply Hwithin].
  - pose proof (sum_list_insert fuel i (S m) m Hn). lia.
Qed.

Lemma fuel_exec sched : forall (fuel : list nat) pool w pool' w',
  Forall2 within fuel pool ->
  exec_schedule sched (pool, w) = Some (pool', w') ->
  exists fuel', Forall2 within fuel' pool' /\
    sum_list fuel' + length sched = sum_list fuel.
Proof.
  induction sched as [|i rest IH]; intros fuel pool w pool' w' Hfuel Hexec.
  - cbn in Hexec. simplify_eq. exists fuel. split; [done|]. cbn. lia.
  - cbn [exec_schedule] in Hexec.
    destruct (thread_step i (pool, w)) as [[pool1 w1]|] eqn:Hstep; [|done].
    destruct (fuel_step fuel i pool w pool1 w1 Hfuel Hstep)
      as (fuel1 & Hfuel1 & Hsum1).
    destruct (IH fuel1 pool1 w1 pool' w' Hfuel1 Hexec) as (fuel' & ? & ?).
    exists fuel'. split; [done|]. cbn [length]. lia.
Qed.

Lemma fuel_start (reqs : list Request) :
  Forall2 within (replicate (length reqs) 6) (serve <$> reqs).
Proof.
  induction reqs as [|r rest IH]; cbn; constructor; [apply serve_within|done].
Qed.

Lemma fuel_completes m : forall (fuel : list nat) pool w,
  Forall2 within fuel pool -> sum_list fuel <= m ->
  exists more pool' w',
    exec_schedule more (pool, w) = Some (pool', w') /\ quiescent (pool', w').
Proof.
  induction m as [|m IH]; intros fuel pool w Hfuel Hm.
  - exists [], pool, w. split; [done|]. intros i.
    destruct (thread_step i (pool, w)) as [[pool1 w1]|] eqn:Hstep; [|done].
    destruct (fuel_step fuel i pool w pool1 w1 Hfuel Hstep) as (? & _ & ?).
    lia.
  - destruct (decide (Exists (fun i => is_Some (thread_step i (pool, w)))
                        (seq 0 (length pool)))) as [Hex|Hno].
    + apply Exists_exists in Hex as (i & _ & [[pool1 w1] Hstep]).
      destruct (fuel_step fuel i pool w pool1 w1 Hfuel Hstep)
        as (fuel1 & Hfuel1 & Hsum1).
      destruct (IH fuel1 pool1 w1 Hfuel1 ltac:(lia))
        as (more & pool' & w' & Hexec & Hq).
      exists (i :: more), pool', w'. split; [|done].
      cbn [exec_schedule]. by rewrite Hstep.
    + exists [], pool, w. split; [done|]. intros i.
      destruct (thread_step i (pool, w)) as [cfg1|] eqn:Hstep; [|done].
      exfalso. apply Hno, Exists_exists. exists i. split; [|by eauto].
      apply elem_of_seq. split; [lia|]. cbn.
      unfold thread_step in Hstep. cbn [fst] in Hstep.
      destruct (pool !! i) eqn:Hi; [|done]. by eapply lookup_lt_Some.
Qed.

(** X12 — Any number of concurrent requests, interleaved in any way:
    every run takes at most six primitive actions per request, and every
    run can be continued until no goroutine can move. *)
Theorem concurrent_requests_terminate reqs w sched pool' w' :
  exec_schedule sched (serve <$> reqs, w) = Some (pool', w') ->
  length sched <= 6 * length reqs /\
  exists more pool'' w'',
    exec_schedule more (pool', w') = Some (pool'', w'') /\
    quiescent (pool'', w'').
Proof.
  intros Hexec.
  destruct (fuel_exec sched _ _ _ _ _ (fuel_start reqs) Hexec)
    as (fuel' & Hfuel' & Hsum).
  pose proof (sum_replicate id (length reqs) 6) as Hsix.
  rewrite list_fmap_id in Hsix. cbn [id] in Hsix. split; [lia|].
  by apply (fuel_completes (sum_list fuel') fuel').
Qed.

Lemma concurrent_requests_terminate_witness :
  length lookup_first <= 6 * length two_requests /\
  exists more pool'' w'',
    exec_schedule more (two_answers, after_first) = Some (pool'', w'') /\
    quiescent (pool'', w'').
Proof.
  apply (concurrent_requests_terminate two_requests
           (start_world same_bytes no_picks) lookup_first two_answers
           after_first).
  vm_compute. reflexivity.
Defined.

(** *** The outcome of a finished run *)

Lemma immediate_returns (reqs : list Request) (pool : list (Prog Response)) :
  forall idx : list nat,
    (forall i, i ∈ idx -> exists r e,
        reqs !! i = Some r /\ serve r = Ret e /\ pool !! i = Some (Ret e)) ->
    exists tr : list (nat * Request * Response),
      tr.*1.*1 = idx /\
      (forall i r e, (i, r, e) ∈ tr ->
         reqs !! i = Some r /\ serve r = Ret e /\ pool !! i = Some (Ret e)).
Proof.
  induction idx as [|i idx IH]; intros Hidx.
  - exists []. split; [done|]. intros i r e Hin. by apply elem_of_nil in Hin.
  - destruct (Hidx i) as (r & e & Hr & He & Hp); [left|].
    destruct IH as (tr & Htr & Hall); [intros j Hj; apply Hidx; by right|].
    exists ((i, r, e) :: tr). split; [cbn; by rewrite Htr|].
    intros j q f Hin. apply elem_of_cons in Hin as [[= -> -> ->]|Hin]; eauto.
Qed.

Lemma serve_all_returns (tr : list (nat * Request * Response)) w :
  (forall i r e, (i, r, e) ∈ tr -> serve r = Ret e) ->
  serve_all (tr.*1.*2) w = Some (tr.*2, w).
Proof.
  induction tr as [|[[i r] e] tr IH]; intros Hall; [done|].
  cbn [fmap list_fmap fst snd serve_all].
  rewrite (Hall i r e) by left. cbn [run].
  fold (fmap (M := list) (@fst (nat * Request) Response) tr).
  fold (fmap (M := list) (@snd (nat * Request) Response) tr).
  fold (fmap (M := list) (@snd nat Request) (tr.*1)).
  rewrite IH; [done|]. intros j q f Hin. apply (Hall j q f). by right.
Qed.

(** X13 — Linearizability: start with the mutex free and let any requests
    run concurrently, interleaved in any way.  When no goroutine can move,
    every one of them has returned, and the responses and the final state
    are those of serving the same requests one after the other in some
    order. *)
Theorem concurrent_requests_linearizable reqs w sched pool' w' :
  mu w = false ->
  exec_schedule sched (serve <$> reqs, w) = Some (pool', w') ->
  quiescent (pool', w') ->
  exists lin : list (nat * Request * Response),
    lin.*1.*1 ≡ₚ seq 0 (length reqs) /\
    (forall i r resp, (i, r, resp) ∈ lin ->
       reqs !! i = Some r /\ pool' !! i = Some (Ret resp)) /\
    serve_all (lin.*1.*2) w = Some (lin.*2, w').
Proof.
  intros Hfree Hexec Hq.
  destruct (lin_inv_exec reqs w sched _ _ _ _ (lin_inv_start reqs w Hfree) Hexec)
    as (lin & wl & Hlen & Hnd & Hseq & Hdone & Hcase).
  destruct Hcase as [(Hmu & -> & Hidle)|
                     (h & rh & p & Hh & Hrh & Hp & Hcs & Hmu & Hrun & Hidle)].
  2:{ (* a holder of the mutex can always go on *)
      exfalso. specialize (Hq h). unfold thread_step in Hq.
      cbn [fst snd] in Hq. rewrite Hp in Hq.
      destruct p as [e|X c k]; [done|].
      destruct (in_cs_step c k w' Hcs Hmu) as (x & w1 & Hx & _).
      by rewrite Hx in Hq. }
  destruct (immediate_returns reqs pool'
              (filter (fun i => i ∉ lin.*1.*1) (seq 0 (length reqs))))
    as (tr & Htr & Hall).
  { intros i Hi. apply list_elem_of_filter in Hi as [Hnin Hi].
    apply elem_of_seq in Hi as [_ Hi]. cbn in Hi.
    destruct (lookup_lt_is_Some_2 reqs i Hi) as [r Hr].
    pose proof (Hidle i r Hnin ltac:(done) Hr) as Hp.
    destruct (serve_shape r) as [[e He]|(k & Hk & _)].
    - exists r, e. by rewrite He in Hp.
    - exfalso. specialize (Hq i). unfold thread_step in Hq.
      cbn [fst snd] in Hq. rewrite Hp, Hk in Hq. cbn [exec_cmd] in Hq.
      by rewrite Hmu in Hq. }
  exists (lin ++ tr)%list. rewrite !fmap_app. split; [|split].
  - rewrite Htr. apply NoDup_Permutation.
    + apply NoDup_app. split; [done|]. split.
      * intros i Hi Hi'. by apply list_elem_of_filter in Hi' as [? _].
      * apply NoDup_filter, NoDup_seq.
    + apply NoDup_seq.
    + intros i. rewrite elem_of_app, list_elem_of_filter, elem_of_seq. cbn.
      split.
      * intros [Hi|[_ ?]]; [|done]. split; [lia|].
        apply lin_index_elem in Hi as (r & resp & Hi).
        destruct (Hdone _ _ _ Hi) as [Hr _]. by eapply lookup_lt_Some.
      * intros ?. destruct (decide (i ∈ lin.*1.*1)); auto.
  - intros i r resp Hin. apply elem_of_app in Hin as [Hin|Hin].
    + by apply Hdone.
    + destruct (Hall _ _ _ Hin) as (? & _ & ?). done.
  - eapply serve_all_app; [exact Hseq|]. apply serve_all_returns.
    intros i r e Hin. by destruct (Hall _ _ _ Hin) as (_ & ? & _).
Qed.

Lemma concurrent_requests_linearizable_witness :
  exists lin : list (nat * Request * Response),
    lin.*1.*1 ≡ₚ seq 0 (length two_requests) /\
    (forall i r resp, (i, r, resp) ∈ lin ->
       two_requests !! i = Some r /\ two_answers !! i = Some (Ret resp)) /\
    serve_all (lin.*1.*2) (start_world same_bytes no_picks)
      = Some (lin.*2, after_first).
Proof.
  apply (concurrent_requests_linearizable two_requests
           (start_world same_bytes no_picks) lookup_first two_answers
           after_first).
  - reflexivity.
  - vm_compute. reflexivity.
  - intros i. destruct i as [|[|i]]; reflexivity.
Defined.


Lemma in_cs_not_idle r : ~ in_cs (serve r).
Proof.
  destruct (serve_shape r) as [[e He]|(k & Hk & _)]; rewrite ?He, ?Hk; auto.
Qed.

(** X14 — Mutual exclusion: at any moment of any concurrent run that
    started with the mutex free, a goroutine that is between its
    [mu.Lock()] and its [mu.Unlock()] holds the mutex, and it is the only
    goroutine there. *)
Theorem mutual_exclusion reqs w sched pool' w' i p :
  mu w = false ->
  exec_schedule sched (serve <$> reqs, w) = Some (pool', w') ->
  pool' !! i = Some p -> in_cs p ->
  mu w' = true /\
  forall j q, pool' !! j = Some q -> in_cs q -> j = i.
Proof.
  intros Hfree Hexec Hi Hp.
  destruct (lin_inv_exec reqs w sched _ _ _ _ (lin_inv_start reqs w Hfree) Hexec)
    as (lin & wl & Hlen & Hnd & Hseq & Hdone & Hcase).
  assert (Hwho : forall n t, pool' !! n = Some t -> in_cs t ->
            (n ∉ lin.*1.*1) /\ exists r, reqs !! n = Some r).
  { intros n t Hn Ht. split.
    - intros Hin. apply lin_index_elem in Hin as (r' & resp & Hin).
      destruct (Hdone _ _ _ Hin) as [_ Hret]. by simplify_eq.
    - apply lookup_lt_is_Some_2. rewrite <- Hlen. by eapply lookup_lt_Some. }
  destruct (Hwho i p Hi Hp) as [Hni [ri Hri]].
  destruct Hcase as [(_ & _ & Hidle)|
                     (h & rh & ph & _ & _ & _ & _ & Hheld & _ & Hidle)].
  - pose proof (Hidle i ri Hni ltac:(done) Hri) as Hs.
    assert (p = serve ri) as -> by congruence.
    by destruct (in_cs_not_idle ri).
  - assert (Hh : forall n t, pool' !! n = Some t -> in_cs t -> n = h).
    { intros n t Hn Ht. destruct (Hwho n t Hn Ht) as [Hnin [r Hr]].
      destruct (decide (n = h)) as [|Hne]; [done|].
      pose proof (Hidle n r Hnin ltac:(congruence) Hr) as Hs.
      assert (t = serve r) as -> by congruence.
      by destruct (in_cs_not_idle r). }
    split; [done|]. intros j q Hj Hq.
    rewrite (Hh i p Hi Hp). by apply (Hh j q).
Qed.

Lemma mutual_exclusion_witness :
  mu (set_mu true (start_world same_bytes no_picks)) = true /\
  forall j q,
    [bind (shorten_locked {| LongURL := "https://example.com/a" |})
          unlock_then;
     serve (get_path "/Ab3def12")] !! j = Some q ->
    in_cs q -> j = 0.
Proof.
  apply (mutual_exclusion two_requests (start_world same_bytes no_picks) [0]
           [bind (shorten_locked {| LongURL := "https://example.com/a" |})
                 unlock_then;
            serve (get_path "/Ab3def12")]
           (set_mu true (start_world same_bytes no_picks)) 0
           (bind (shorten_locked {| LongURL := "https://example.com/a" |})
                 unlock_then)).
  - reflexivity.
  - reflexivity.
  - reflexivity.
  - apply in_cs_bind, lock_free_shorten_locked.
Defined.

(** X15 — A concurrent run cannot leave the states of sequential service:
    starting from a fresh server, whenever the mutex is free the state is
    one that serving some requests one after the other reaches; so every
    invariant of the reachable states holds there too. *)
Theorem concurrent_state_reachable reqs w sched pool' w' :
  initial w ->
  exec_schedule sched (serve <$> reqs, w) = Some (pool', w') ->
  mu w' = false ->
  reachable w'.
Proof.
  intros Hinit Hexec Hmu. pose proof Hinit as [_ Hfree].
  destruct (lin_inv_exec reqs w sched _ _ _ _ (lin_inv_start reqs w Hfree) Hexec)
    as (lin & wl & _ & _ & Hseq & _ & Hcase).
  destruct Hcase as [(_ & -> & _)|(h & rh & ph & _ & _ & _ & _ & Hheld & _)];
    [|congruence].
  by exists w, (lin.*1.*2), (lin.*2).
Qed.

Lemma concurrent_state_reachable_witness : reachable after_first.
Proof.
  apply (concurrent_state_reachable two_requests
           (start_world same_bytes no_picks) lookup_first two_answers
           after_first).
  - by split.
  - vm_compute. reflexivity.
  - reflexivity.
Defined.
